(** * MuralScan: the anchor, selection and disclosure logic of [src/app.ts]

    A shallow embedding of the [App] class.  Methods become functions in a
    small state-and-exception monad over a record holding the fields of the
    class; object references ([THREE.Mesh], [THREE.Material]) are heap
    addresses, so that [!=] on objects is address inequality. *)

From Stdlib Require Import QArith Sorted.
From stdpp Require Import base option list strings gmap.

Local Open Scope string_scope.
Local Open Scope Q_scope.

(** ** Values of the rendering engine *)

(** JavaScript numbers.  The program only copies them and stores the two
    constants [0] and [.25]; it performs no arithmetic on them. *)
Definition number := Q.

Record Vector3 := { v_x : number; v_y : number; v_z : number }.
Record Euler := { e_x : number; e_y : number; e_z : number }.
Record Quaternion := { q_x : number; q_y : number; q_z : number; q_w : number }.

(** [interface Offset] *)
Record Offset := {
  offset_position : Vector3;
  offset_rotation : Euler;
  offset_scale : Vector3
}.

(** Modelled from the spec: the wayspot calibration document (fetched from
    [/wayspots.json], not part of the sources) maps a wayspot name to a
    record carrying an [offset]; [applyOffset] indexes it by name. *)
Record WayspotEntry := { offset : Offset }.

(** Modelled from the spec: [FigureData] and [MuralData] are declared in
    [./lib/mural], which is not part of the sources.  A mural document is
    [{ scale?: number, figures: [{ tag, caption, detail }] }]. *)
Record FigureData := {
  tag : string;
  figure_caption : string;
  figure_detail : string
}.

Record MuralData := {
  mural_scale : option number;
  figures : list FigureData
}.

(** A [THREE.Mesh] as far as the program reads it: its [name] and the
    address of its [material]. *)
Record Mesh := { mesh_name : string; mesh_material : positive }.

(** One entry of [raycaster.intersectObjects]: the distance along the ray
    and the address of the object hit. *)
Record Intersection := { distance : number; object : positive }.

(** The [detail] payload of an 8th Wall wayspot event. *)
Record WayspotDetail := {
  detail_name : string;
  detail_position : Vector3;
  detail_rotation : Quaternion
}.

(** ** The fields of [App] *)

(** The part of an [HTMLElement] the program writes:
    [style.visibility] and [innerText]. *)
Record HTMLElement := { visibility : string; innerText : string }.

(** [this.origin]: the group that receives the tracked pose. *)
Record Origin := { origin_position : Vector3; origin_quaternion : Quaternion }.

(** [this.rootContainer]: the group nested in [origin] that receives the
    calibration offset and carries the content's visibility. *)
Record Container := {
  position : Vector3;
  rotation : Euler;
  scale : Vector3;
  visible : bool
}.

(** What [log] is called with. *)
Inductive LogArg :=
| LogText (text : string)
| LogVector (v : Vector3)
| LogJSON (figureData : option FigureData).

(** Writes to materials and to the caption and detail elements, in the
    order in which they are performed. *)
Inductive Effect :=
| MaterialOpacity (material : positive) (value : number)
| CaptionVisibility (value : string)
| DetailVisibility (value : string)
| CaptionText (text : string)
| DetailText (text : string).

Record App := {
  caption : HTMLElement;
  detail : HTMLElement;
  (** children of [logElement], newest first ([prepend]) *)
  logElement : list LogArg;
  (** the meshes of [this.scene], by address *)
  scene : positive -> Mesh;
  (** [opacity] of each material written so far, by address *)
  materials : gmap positive number;
  origin : Origin;
  rootContainer : Container;
  selected : option positive;
  (** [undefined] until the fetch of [/wayspots.json] resolves *)
  wayspotData : option (gmap string WayspotEntry);
  (** [undefined] until the fetch of the mural document resolves *)
  muralData : option MuralData;
  (** history of the writes of type [Effect], oldest first *)
  effects : list Effect
}.

(** ** Completions: a method returns normally or throws *)

Inductive JsError := TypeError.

Inductive Completion (A : Type) :=
| Normal (a : A) (s : App)
| Throws (e : JsError) (s : App).
Arguments Normal {A} a s.
Arguments Throws {A} e s.

Definition JS (A : Type) : Type := App -> Completion A.

Definition ret {A} (a : A) : JS A := fun s => Normal a s.

Definition bind {A B} (m : JS A) (k : A -> JS B) : JS B := fun s =>
  match m s with
  | Normal a s' => k a s'
  | Throws e s' => Throws e s'
  end.

Definition throw {A} (e : JsError) : JS A := fun s => Throws e s.

Definition read {A} (f : App -> A) : JS A := fun s => Normal (f s) s.

Definition modify (f : App -> App) : JS unit := fun s => Normal tt (f s).

Notation "'let!' x ':=' m 'in' k" := (bind m (fun x => k))
  (at level 10, x name, m at level 100, k at level 200).
Notation "m >> k" := (bind m (fun _ => k))
  (at level 90, right associativity).

(** The state a call leaves behind, whether it returned or threw. *)
Definition state_of {A} (c : Completion A) : App :=
  match c with
  | Normal _ s => s
  | Throws _ s => s
  end.

Definition completes {A} (c : Completion A) : bool :=
  match c with
  | Normal _ _ => true
  | Throws _ _ => false
  end.

(** ** Field updates *)

Definition with_caption (el : HTMLElement) (s : App) : App :=
  {| caption := el; detail := detail s; logElement := logElement s;
     scene := scene s; materials := materials s; origin := origin s;
     rootContainer := rootContainer s; selected := selected s;
     wayspotData := wayspotData s; muralData := muralData s;
     effects := effects s |}.

Definition with_detail (el : HTMLElement) (s : App) : App :=
  {| caption := caption s; detail := el; logElement := logElement s;
     scene := scene s; materials := materials s; origin := origin s;
     rootContainer := rootContainer s; selected := selected s;
     wayspotData := wayspotData s; muralData := muralData s;
     effects := effects s |}.

Definition with_logElement (l : list LogArg) (s : App) : App :=
  {| caption := caption s; detail := detail s; logElement := l;
     scene := scene s; materials := materials s; origin := origin s;
     rootContainer := rootContainer s; selected := selected s;
     wayspotData := wayspotData s; muralData := muralData s;
     effects := effects s |}.

Definition with_materials (m : gmap positive number) (s : App) : App :=
  {| caption := caption s; detail := detail s; logElement := logElement s;
     scene := scene s; materials := m; origin := origin s;
     rootContainer := rootContainer s; selected := selected s;
     wayspotData := wayspotData s; muralData := muralData s;
     effects := effects s |}.

Definition with_origin (o : Origin) (s : App) : App :=
  {| caption := caption s; detail := detail s; logElement := logElement s;
     scene := scene s; materials := materials s; origin := o;
     rootContainer := rootContainer s; selected := selected s;
     wayspotData := wayspotData s; muralData := muralData s;
     effects := effects s |}.

Definition with_rootContainer (c : Container) (s : App) : App :=
  {| caption := caption s; detail := detail s; logElement := logElement s;
     scene := scene s; materials := materials s; origin := origin s;
     rootContainer := c; selected := selected s;
     wayspotData := wayspotData s; muralData := muralData s;
     effects := effects s |}.

Definition with_selected (r : option positive) (s : App) : App :=
  {| caption := caption s; detail := detail s; logElement := logElement s;
     scene := scene s; materials := materials s; origin := origin s;
     rootContainer := rootContainer s; selected := r;
     wayspotData := wayspotData s; muralData := muralData s;
     effects := effects s |}.

Definition with_wayspotData (w : option (gmap string WayspotEntry)) (s : App) : App :=
  {| caption := caption s; detail := detail s; logElement := logElement s;
     scene := scene s; materials := materials s; origin := origin s;
     rootContainer := rootContainer s; selected := selected s;
     wayspotData := w; muralData := muralData s;
     effects := effects s |}.

Definition with_muralData (m : option MuralData) (s : App) : App :=
  {| caption := caption s; detail := detail s; logElement := logElement s;
     scene := scene s; materials := materials s; origin := origin s;
     rootContainer := rootContainer s; selected := selected s;
     wayspotData := wayspotData s; muralData := m;
     effects := effects s |}.

Definition with_effects (l : list Effect) (s : App) : App :=
  {| caption := caption s; detail := detail s; logElement := logElement s;
     scene := scene s; materials := materials s; origin := origin s;
     rootContainer := rootContainer s; selected := selected s;
     wayspotData := wayspotData s; muralData := muralData s;
     effects := l |}.

Definition record (e : Effect) (s : App) : App :=
  with_effects (effects s ++ [e]) s.

(** ** Primitive writes *)

(** [this.caption!.style.visibility = v] *)
Definition set_caption_visibility (v : string) : JS unit :=
  modify (fun s =>
    record (CaptionVisibility v)
      (with_caption {| visibility := v; innerText := innerText (caption s) |} s)).

(** [this.detail!.style.visibility = v] *)
Definition set_detail_visibility (v : string) : JS unit :=
  modify (fun s =>
    record (DetailVisibility v)
      (with_detail {| visibility := v; innerText := innerText (detail s) |} s)).

(** [this.caption!.innerText = t] *)
Definition set_caption_text (t : string) : JS unit :=
  modify (fun s =>
    record (CaptionText t)
      (with_caption {| visibility := visibility (caption s); innerText := t |} s)).

(** [this.detail!.innerText = t] *)
Definition set_detail_text (t : string) : JS unit :=
  modify (fun s =>
    record (DetailText t)
      (with_detail {| visibility := visibility (detail s); innerText := t |} s)).

(** [(mesh.material as THREE.Material).opacity = v] *)
Definition set_opacity (mesh : positive) (v : number) : JS unit :=
  modify (fun s =>
    let m := mesh_material (scene s mesh) in
    record (MaterialOpacity m v) (with_materials (<[m := v]> (materials s)) s)).

(** ** The methods of [App] *)

(** [displayCaption(visible)] *)
Definition displayCaption (v : bool) : JS unit :=
  set_caption_visibility (if v then "visible" else "hidden").

(** [displayDetail(visible)] *)
Definition displayDetail (v : bool) : JS unit :=
  set_detail_visibility (if v then "visible" else "hidden").

(** [toggleDetail()] *)
Definition toggleDetail : JS unit :=
  let! state := read (fun s => visibility (detail s)) in
  set_detail_visibility (if String.eqb state "visible" then "hidden" else "visible").

(** [log(text)]: a new child is prepended to the log element. *)
Definition log (text : LogArg) : JS unit :=
  modify (fun s => with_logElement (text :: logElement s) s).

(** The [for ... of] loop of [findFigure] over [this.muralData.figures]. *)
Fixpoint findFigure_loop (tag0 : string) (fs : list FigureData) : option FigureData :=
  match fs with
  | [] => None
  | currentFigureData :: rest =>
      if String.eqb (tag currentFigureData) tag0 then Some currentFigureData
      else findFigure_loop tag0 rest
  end.

(** [findFigure(tag)]: reading [.figures] of an undefined [muralData]
    is a [TypeError]. *)
Definition findFigure (tag0 : string) : JS (option FigureData) :=
  let! data := read muralData in
  match data with
  | None => throw TypeError
  | Some md => ret (findFigure_loop tag0 (figures md))
  end.

(** [deselect()] *)
Definition deselect : JS unit :=
  let! sel := read selected in
  match sel with
  | Some mesh => set_opacity mesh 0
  | None => ret tt
  end >>
  modify (with_selected None) >>
  displayCaption false.

(** [intersects[i].object]: a [TypeError] when [intersects[i]] is undefined. *)
Definition intersect_object (intersects : list Intersection) (i : nat) : JS positive :=
  match intersects !! i with
  | Some hit => ret (object hit)
  | None => throw TypeError
  end.

(** [a != b] for an object [a] and an object or [null] [b]. *)
Definition differs (a : positive) (b : option positive) : bool :=
  match b with
  | Some r => negb (Pos.eqb a r)
  | None => true
  end.

(** [update()], given the result of [raycaster.intersectObjects]. *)
Definition update (intersects : list Intersection) : JS unit :=
  if (0 <? length intersects)%nat then
    let! newSelection := intersect_object intersects (length intersects - 1) in
    let! current := read selected in
    if differs newSelection current then
      deselect >>
      let! picked := intersect_object intersects (length intersects - 1) in
      modify (with_selected (Some picked)) >>
      let! sel := read selected in
      match sel with
      | Some mesh => set_opacity mesh (1 # 4)
      | None => throw TypeError
      end >>
      let! hit := intersect_object intersects (length intersects - 1) in
      let! name := read (fun s => mesh_name (scene s hit)) in
      log (LogText name) >>
      let! hit' := intersect_object intersects (length intersects - 1) in
      let! tag0 := read (fun s => mesh_name (scene s hit')) in
      let! figureData := findFigure tag0 in
      log (LogJSON figureData) >>
      match figureData with
      | Some fd =>
          displayCaption true >>
          set_caption_text (figure_caption fd) >>
          set_detail_text (figure_detail fd) >>
          log (LogJSON figureData)
      | None => ret tt
      end
    else ret tt
  else deselect.

(** The own property names of [Object.prototype], which the [in] operator
    finds on every object literal. *)
Definition objectPrototype : list string :=
  [ "constructor"; "hasOwnProperty"; "isPrototypeOf"; "propertyIsEnumerable";
    "toLocaleString"; "toString"; "valueOf"; "__proto__";
    "__defineGetter__"; "__defineSetter__"; "__lookupGetter__"; "__lookupSetter__" ].

Definition inherited (key : string) : bool :=
  existsb (String.eqb key) objectPrototype.

(** [key in obj] for a parsed JSON object. *)
Definition js_in (key : string) (obj : gmap string WayspotEntry) : bool :=
  match obj !! key with
  | Some _ => true
  | None => inherited key
  end.

(** [applyOffset(wayspotName)].  [in] applied to an undefined
    [wayspotData] is a [TypeError]; so is [data.offset.position] when
    [data] is a member of [Object.prototype], which has no [offset]. *)
Definition applyOffset (wayspotName : string) : JS unit :=
  let! store := read wayspotData in
  match store with
  | None => throw TypeError
  | Some obj =>
      if js_in wayspotName obj then
        match obj !! wayspotName with
        | Some data =>
            modify (fun s => with_rootContainer
              {| position := offset_position (offset data);
                 rotation := rotation (rootContainer s);
                 scale := scale (rootContainer s);
                 visible := visible (rootContainer s) |} s) >>
            modify (fun s => with_rootContainer
              {| position := position (rootContainer s);
                 rotation := {| e_x := e_x (offset_rotation (offset data));
                                e_y := e_y (offset_rotation (offset data));
                                e_z := e_z (offset_rotation (offset data)) |};
                 scale := scale (rootContainer s);
                 visible := visible (rootContainer s) |} s) >>
            modify (fun s => with_rootContainer
              {| position := position (rootContainer s);
                 rotation := rotation (rootContainer s);
                 scale := offset_scale (offset data);
                 visible := visible (rootContainer s) |} s)
        | None => throw TypeError
        end
      else ret tt
  end.

(** [this.origin.position.copy(p); this.origin.quaternion.copy(q)] *)
Definition set_origin (d : WayspotDetail) : JS unit :=
  modify (fun s => with_origin
    {| origin_position := detail_position d;
       origin_quaternion := origin_quaternion (origin s) |} s) >>
  modify (fun s => with_origin
    {| origin_position := origin_position (origin s);
       origin_quaternion := detail_rotation d |} s).

(** [this.rootContainer.visible = v] *)
Definition set_visible (v : bool) : JS unit :=
  modify (fun s => with_rootContainer
    {| position := position (rootContainer s);
       rotation := rotation (rootContainer s);
       scale := scale (rootContainer s);
       visible := v |} s).

(** [wayspotFound({ detail })] *)
Definition wayspotFound (d : WayspotDetail) : JS unit :=
  log (LogText ("WAYSPOT FOUND:" ++ detail_name d)) >>
  log (LogVector (detail_position d)) >>
  applyOffset (detail_name d) >>
  set_origin d >>
  set_visible true.

(** [wayspotUpdated({ detail })] *)
Definition wayspotUpdated (d : WayspotDetail) : JS unit :=
  log (LogText "WAYSPOT UPDATED") >>
  applyOffset (detail_name d) >>
  set_origin d >>
  set_visible true.

(** [wayspotLost({ detail })] *)
Definition wayspotLost (d : WayspotDetail) : JS unit :=
  log (LogText "WAYSPOT LOST") >>
  applyOffset (detail_name d) >>
  set_origin d >>
  set_visible false.

(** The three tracking events and their handlers. *)
Inductive TrackingEvent := Found | Updated | Lost.

Definition handle (k : TrackingEvent) (d : WayspotDetail) : JS unit :=
  match k with
  | Found => wayspotFound d
  | Updated => wayspotUpdated d
  | Lost => wayspotLost d
  end.

(** The listeners [initialize] installs on the caption and detail elements. *)
Definition tapCaption : JS unit := toggleDetail.
Definition tapDetail : JS unit := displayDetail false.

(** The callbacks of the two fetches in [initialize]. *)
Definition muralLoaded (data : MuralData) : JS unit :=
  modify (with_muralData (Some data)) >>
  modify (with_muralData (Some
    {| mural_scale :=
         match mural_scale data with
         | Some q => if Qeq_bool q 0 then Some 1 else Some q
         | None => Some 1
         end;
       figures := figures data |})).

Definition wayspotsLoaded (data : gmap string WayspotEntry) : JS unit :=
  modify (with_wayspotData (Some data)).

(** A new [THREE.Group]: at the origin, unrotated, of unit scale. *)
Definition zero3 : Vector3 := {| v_x := 0; v_y := 0; v_z := 0 |}.
Definition one3 : Vector3 := {| v_x := 1; v_y := 1; v_z := 1 |}.
Definition zeroEuler : Euler := {| e_x := 0; e_y := 0; e_z := 0 |}.
Definition identityQuaternion : Quaternion :=
  {| q_x := 0; q_y := 0; q_z := 0; q_w := 1 |}.

(** The application once [initialize(scene, camera, renderer, arMode)] has
    returned and before either fetch has resolved; [captionText] and
    [detailText] are what the page's two elements contain. *)
Definition initialize (captionText detailText : string)
    (scene0 : positive -> Mesh) (arMode : bool) : App :=
  {| caption := {| visibility := "hidden"; innerText := captionText |};
     detail := {| visibility := "hidden"; innerText := detailText |};
     logElement := [];
     scene := scene0;
     materials := ∅;
     origin := {| origin_position := zero3; origin_quaternion := identityQuaternion |};
     rootContainer :=
       {| position := zero3; rotation := zeroEuler; scale := one3;
          visible := if arMode then false else true |};
     selected := None;
     wayspotData := None;
     muralData := None;
     effects := [CaptionVisibility "hidden"; DetailVisibility "hidden"] |}.

(** A run of rendered frames: [update] is called once per frame with that
    frame's hit-test result, on the state the previous frame left. *)
Definition frames (hits : list (list Intersection)) (s : App) : App :=
  foldl (fun st intersects => state_of (update intersects st)) s hits.

(** ** Vocabulary of the properties *)

(** The calibration entry of a wayspot name: none while the store is not
    loaded, and none when the loaded store has no such key. *)
Definition calibration (s : App) (wayspotName : string) : option WayspotEntry :=
  match wayspotData s with
  | Some obj => obj !! wayspotName
  | None => None
  end.

(** The local transform of the content container. *)
Definition transform (c : Container) : Vector3 * Euler * Vector3 :=
  (position c, rotation c, scale c).

Definition offset_transform (o : Offset) : Vector3 * Euler * Vector3 :=
  (offset_position o, offset_rotation o, offset_scale o).

(** Whether the lookup of [applyOffset] runs through: the store is
    loaded, and the name is one of its keys or is not found at all. *)
Definition lookup_completes (s : App) (wayspotName : string) : bool :=
  match wayspotData s with
  | Some obj =>
      match obj !! wayspotName with
      | Some _ => true
      | None => negb (inherited wayspotName)
      end
  | None => false
  end.

(** The container once [applyOffset] has copied an entry's offset. *)
Definition offset_container (data : WayspotEntry) (c : Container) : Container :=
  {| position := offset_position (offset data);
     rotation := offset_rotation (offset data);
     scale := offset_scale (offset data);
     visible := visible c |}.

(** The pose an event writes to [origin]. *)
Definition event_pose (d : WayspotDetail) : Origin :=
  {| origin_position := detail_position d; origin_quaternion := detail_rotation d |}.

(** Visibility the content root is meant to have after each event. *)
Definition visible_after (k : TrackingEvent) : bool :=
  match k with
  | Found | Updated => true
  | Lost => false
  end.

(** What is on screen of the disclosure UI. *)
Definition shown (s : App) : string * string :=
  (visibility (caption s), visibility (detail s)).

(** The three states of the disclosure UI, read off the two elements;
    a hidden caption with a visible detail is none of them. *)
Inductive DisclosureState := Hidden | CaptionOnly | CaptionAndDetail.

Definition disclosure (s : App) : option DisclosureState :=
  match String.eqb (visibility (caption s)) "visible",
        String.eqb (visibility (detail s)) "visible" with
  | false, false => Some Hidden
  | true, false => Some CaptionOnly
  | true, true => Some CaptionAndDetail
  | false, true => None
  end.

(** The figure record a mesh's name resolves to, if the mural is loaded
    and has one. *)
Definition resolve (s : App) (mesh : positive) : option FigureData :=
  match muralData s with
  | Some md => findFigure_loop (mesh_name (scene s mesh)) (figures md)
  | None => None
  end.

(** The statements of [update] that follow the call of [deselect], for a
    hit-test result whose last entry is the object [mesh]. *)
Definition select_block (mesh : positive) : JS unit :=
  modify (with_selected (Some mesh)) >>
  let! sel := read selected in
  match sel with
  | Some m => set_opacity m (1 # 4)
  | None => throw TypeError
  end >>
  let! name := read (fun s => mesh_name (scene s mesh)) in
  log (LogText name) >>
  let! tag0 := read (fun s => mesh_name (scene s mesh)) in
  let! figureData := findFigure tag0 in
  log (LogJSON figureData) >>
  match figureData with
  | Some fd =>
      displayCaption true >>
      set_caption_text (figure_caption fd) >>
      set_detail_text (figure_detail fd) >>
      log (LogJSON figureData)
  | None => ret tt
  end.

(** The writes of a Deselect and of a Select, in order. *)
Definition deselect_effects (s : App) : list Effect :=
  match selected s with
  | Some old => [MaterialOpacity (mesh_material (scene s old)) 0]
  | None => []
  end ++ [CaptionVisibility "hidden"].

Definition caption_effects (fd : option FigureData) : list Effect :=
  match fd with
  | Some f =>
      [CaptionVisibility "visible"; CaptionText (figure_caption f);
       DetailText (figure_detail f)]
  | None => []
  end.

Definition select_effects (s : App) (mesh : positive) : list Effect :=
  MaterialOpacity (mesh_material (scene s mesh)) (1 # 4)
    :: caption_effects (resolve s mesh).

(** The log lines of a Select, newest first. *)
Definition select_log (s : App) (mesh : positive) : list LogArg :=
  match muralData s with
  | Some _ =>
      match resolve s mesh with
      | Some fd => [LogJSON (Some fd); LogJSON (Some fd)]
      | None => [LogJSON None]
      end
  | None => []
  end ++ [LogText (mesh_name (scene s mesh))].

(** Number of highlights applied in a history of writes. *)
Definition is_highlight (e : Effect) : bool :=
  match e with
  | MaterialOpacity _ v => Qeq_bool v (1 # 4)
  | _ => false
  end.

Fixpoint highlights (tr : list Effect) : nat :=
  match tr with
  | [] => 0
  | e :: rest => (if is_highlight e then 1 else 0) + highlights rest
  end.

(** Hit-test results come nearest first. *)
Definition by_distance (a b : Intersection) : Prop := distance a <= distance b.

(** [r] is the first figure of [fs] whose tag is exactly [t], or nothing
    when no figure has that tag. *)
Definition first_match (t : string) (fs : list FigureData)
    (r : option FigureData) : Prop :=
  match r with
  | Some f =>
      exists i : nat, fs !! i = Some f /\ tag f = t /\
        forall (j : nat) (g : FigureData), (j < i)%nat -> fs !! j = Some g -> tag g <> t
  | None => forall f : FigureData, f ∈ fs -> tag f <> t
  end.

(** *** The statements of the specification that the code does not meet *)

(** A Hide hides caption and detail, and a tap on the detail after it
    changes nothing on screen. *)
Definition hide_resets_disclosure (s : App) : Prop :=
  let s' := state_of (deselect s) in
  disclosure s' = Some Hidden /\
  visibility (detail s') = "hidden" /\
  shown (state_of (tapDetail s')) = shown s'.

(** A selection change hides the detail element. *)
Definition select_resets_detail (intersects : list Intersection) (s : App) : Prop :=
  visibility (detail (state_of (update intersects s))) = "hidden".

(** A handler and a frame update complete while a store is unloaded. *)
Definition safe_while_unloaded (k : TrackingEvent) (d : WayspotDetail)
    (intersects : list Intersection) (s : App) : Prop :=
  (wayspotData s = None -> completes (handle k d s) = true) /\
  (muralData s = None -> completes (update intersects s) = true).

(** The content root has the event's visibility after the handler ran. *)
Definition visibility_follows_event (k : TrackingEvent) (d : WayspotDetail)
    (s : App) : Prop :=
  visible (rootContainer (state_of (handle k d s))) = visible_after k.

(** *** A session used in the examples *)

Definition demo_scene (r : positive) : Mesh :=
  {| mesh_name :=
       if Pos.eqb r 1 then "fig1" else if Pos.eqb r 2 then "fig2"
       else if Pos.eqb r 4 then "fig1" else "wall";
     mesh_material := r |}.

Definition demo_mural : MuralData :=
  {| mural_scale := None;
     figures :=
       [ {| tag := "fig1"; figure_caption := "A"; figure_detail := "Long A" |};
         {| tag := "fig2"; figure_caption := "B"; figure_detail := "Long B" |};
         {| tag := "fig1"; figure_caption := "A'"; figure_detail := "Long A'" |} ] |}.

Definition demo_offset : Offset :=
  {| offset_position := {| v_x := 1; v_y := 0; v_z := 0 |};
     offset_rotation := zeroEuler;
     offset_scale := one3 |}.

Definition demo_wayspots : gmap string WayspotEntry :=
  {[ "wp1" := {| offset := demo_offset |} ]}.

Definition demo_detail (name : string) : WayspotDetail :=
  {| detail_name := name;
     detail_position := {| v_x := 2; v_y := 3; v_z := 4 |};
     detail_rotation := identityQuaternion |}.

Definition hit_near : Intersection := {| distance := 1; object := 1%positive |}.
Definition hit_far : Intersection := {| distance := 2; object := 2%positive |}.
Definition hit_wall : Intersection := {| distance := 3; object := 3%positive |}.
(** A second mesh object that is also named "fig1". *)
Definition hit_twin : Intersection := {| distance := 4; object := 4%positive |}.

(** AR mode, nothing fetched yet. *)
Definition demo_start : App := initialize "" "" demo_scene true.

(** Both documents fetched. *)
Definition demo_loaded : App :=
  state_of (wayspotsLoaded demo_wayspots (state_of (muralLoaded demo_mural demo_start))).

(** The reticle rests on "fig1", and the user has tapped its caption:
    caption and detail are both on screen. *)
Definition demo_disclosed : App :=
  state_of (tapCaption (state_of (update [hit_near] demo_loaded))).

(** ** The callbacks as actions *)

(** Everything the browser can call on the application once [initialize]
    has returned: a rendered frame with its hit-test result, a tracking
    event, a tap on the caption or on the detail, and the resolution of
    either fetch. *)
Inductive Action :=
| Frame (intersects : list Intersection)
| Tracking (k : TrackingEvent) (d : WayspotDetail)
| TapCaption
| TapDetail
| MuralLoaded (data : MuralData)
| WayspotsLoaded (data : gmap string WayspotEntry).

Definition perform (a : Action) : JS unit :=
  match a with
  | Frame intersects => update intersects
  | Tracking k d => handle k d
  | TapCaption => tapCaption
  | TapDetail => tapDetail
  | MuralLoaded data => muralLoaded data
  | WayspotsLoaded data => wayspotsLoaded data
  end.

(** A callback runs on the state the previous one left, whether that one
    returned or threw. *)
Definition step (a : Action) (s : App) : App := state_of (perform a s).

Definition run (acts : list Action) (s : App) : App :=
  foldl (fun st a => step a st) s acts.

(** The figures of every mural document delivered in a history. *)
Fixpoint loaded_figures (acts : list Action) : list FigureData :=
  match acts with
  | [] => []
  | MuralLoaded data :: rest => figures data ++ loaded_figures rest
  | _ :: rest => loaded_figures rest
  end.

(** A run of tracking events. *)
Definition track (events : list (TrackingEvent * WayspotDetail)) (s : App) : App :=
  foldl (fun st e => state_of (handle e.1 e.2 st)) s events.

(** The entry of the latest event of a run whose name is a key of the
    store. *)
Fixpoint last_calibrated (obj : gmap string WayspotEntry)
    (events : list (TrackingEvent * WayspotDetail)) (before : option WayspotEntry)
    : option WayspotEntry :=
  match events with
  | [] => before
  | e :: rest =>
      last_calibrated obj rest
        (match obj !! detail_name e.2 with
         | Some entry => Some entry
         | None => before
         end)
  end.

(** [style.visibility] holds one of the two values the program writes. *)
Definition two_valued (v : string) : Prop := v = "visible" \/ v = "hidden".

(** The highlight and the selection agree: the selected mesh's material
    has opacity [.25], and every other material the program has written
    has opacity [0]. *)
Record highlight_consistent (s : App) : Prop := {
  selected_is_highlighted :
    forall mesh : positive, selected s = Some mesh ->
      materials s !! mesh_material (scene s mesh) = Some (1 # 4);
  highlighted_is_selected :
    forall (m : positive) (v : number), materials s !! m = Some v ->
      v = 0 \/
      (v = (1 # 4) /\
       exists mesh : positive, selected s = Some mesh /\ mesh_material (scene s mesh) = m)
}.

(** The state apart from the log and from the history of writes. *)
Definition observable (s : App) : App := with_logElement [] (with_effects [] s).

(** What the caption shows, in terms of the history that led to a state. *)
Definition caption_of_selection (acts : list Action) (s : App) : Prop :=
  (forall (md : MuralData) (fd : FigureData),
     muralData s = Some md -> fd ∈ figures md -> fd ∈ loaded_figures acts) /\
  (visibility (caption s) = "visible" ->
   exists (mesh : positive) (fd : FigureData),
     selected s = Some mesh /\ fd ∈ loaded_figures acts /\
     tag fd = mesh_name (scene s mesh) /\
     innerText (caption s) = figure_caption fd /\
     innerText (detail s) = figure_detail fd).

(** The state a handler leaves, apart from the log: the pose and the
    visibility are written, and the offset if the name has an entry, when
    the lookup runs through; nothing is written otherwise. *)
Definition anchored (k : TrackingEvent) (d : WayspotDetail) (s : App) : App :=
  if lookup_completes s (detail_name d)
  then with_rootContainer
         {| position :=
              match calibration s (detail_name d) with
              | Some data => offset_position (offset data)
              | None => position (rootContainer s)
              end;
            rotation :=
              match calibration s (detail_name d) with
              | Some data => offset_rotation (offset data)
              | None => rotation (rootContainer s)
              end;
            scale :=
              match calibration s (detail_name d) with
              | Some data => offset_scale (offset data)
              | None => scale (rootContainer s)
              end;
            visible := visible_after k |}
         (with_origin (event_pose d) s)
  else s.

(** A mural whose tags are pairwise different, and its second figure. *)
Definition demo_figure_b : FigureData :=
  {| tag := "fig2"; figure_caption := "B"; figure_detail := "Long B" |}.

Definition demo_mural_unique : MuralData :=
  {| mural_scale := Some 1;
     figures :=
       [ {| tag := "fig1"; figure_caption := "A"; figure_detail := "Long A" |};
         demo_figure_b ] |}.

(** ** Auxiliary facts *)

Ltac js_unfold :=
  unfold tapCaption, tapDetail, deselect, displayCaption, displayDetail,
    toggleDetail, log, findFigure, set_caption_visibility,
    set_detail_visibility, set_caption_text, set_detail_text, set_opacity,
    set_origin, set_visible, bind, ret, read, modify, throw in *.

Lemma lookup_last_index (intersects : list Intersection) (hit : Intersection) :
  last intersects = Some hit ->
  (0 <? length intersects)%nat = true /\
  intersects !! (length intersects - 1)%nat = Some hit.
Proof.
  intros H. split.
  - destruct intersects; [discriminate | reflexivity].
  - rewrite last_lookup in H.
    replace (length intersects - 1)%nat with (Nat.pred (length intersects)) by lia.
    exact H.
Qed.

Lemma differs_false (a : positive) (b : option positive) :
  differs a b = false <-> b = Some a.
Proof.
  destruct b as [r|]; simpl; [|split; discriminate].
  rewrite negb_false_iff, Pos.eqb_eq. split; congruence.
Qed.

Lemma differs_true (a : positive) (b : option positive) :
  differs a b = true <-> b <> Some a.
Proof.
  rewrite <- not_false_iff_true, differs_false. tauto.
Qed.

(** Without a hit the frame update is a Deselect. *)
Lemma update_no_hit (s : App) : update [] s = deselect s.
Proof. reflexivity. Qed.

(** A pick that is the current selection: the frame update does nothing. *)
Lemma update_same (intersects : list Intersection) (hit : Intersection) (s : App) :
  last intersects = Some hit -> selected s = Some (object hit) ->
  update intersects s = Normal tt s.
Proof.
  intros [Hlen Hidx]%lookup_last_index Hsel.
  unfold update. rewrite Hlen. unfold intersect_object. rewrite Hidx.
  js_unfold.
  replace (differs (object hit) (selected s)) with false; [reflexivity|].
  symmetry. now apply differs_false.
Qed.

(** A Deselect, field by field. *)
Lemma deselect_fields (s : App) :
  let s' := state_of (deselect s) in
  deselect s = Normal tt s' /\
  selected s' = None /\
  effects s' = (effects s ++ deselect_effects s)%list /\
  visibility (caption s') = "hidden" /\
  innerText (caption s') = innerText (caption s) /\
  detail s' = detail s /\
  logElement s' = logElement s /\
  scene s' = scene s /\
  muralData s' = muralData s.
Proof.
  destruct s as [cap det lg sc mat org rc sel wd md eff].
  unfold deselect_effects. js_unfold.
  destruct sel; cbn; rewrite <- ?app_assoc; repeat split; reflexivity.
Qed.

(** The statements after [deselect], field by field, from a state in
    which nothing is selected. *)
Lemma select_block_fields (mesh : positive) (s : App) :
  selected s = None ->
  let c := select_block mesh s in
  completes c = match muralData s with Some _ => true | None => false end /\
  selected (state_of c) = Some mesh /\
  effects (state_of c) = (effects s ++ select_effects s mesh)%list /\
  logElement (state_of c) = (select_log s mesh ++ logElement s)%list /\
  materials (state_of c) !! mesh_material (scene s mesh) = Some (1 # 4) /\
  visibility (caption (state_of c))
    = match resolve s mesh with Some _ => "visible" | None => visibility (caption s) end /\
  innerText (caption (state_of c))
    = match resolve s mesh with
      | Some fd => figure_caption fd
      | None => innerText (caption s)
      end /\
  visibility (detail (state_of c)) = visibility (detail s) /\
  innerText (detail (state_of c))
    = match resolve s mesh with
      | Some fd => figure_detail fd
      | None => innerText (detail s)
      end.
Proof.
  destruct s as [cap det lg sc mat org rc sel wd md eff]. simpl. intros ->.
  unfold select_block, select_effects, select_log, resolve. js_unfold.
  destruct md as [md|]; cbn; [destruct (findFigure_loop _ _); cbn|];
    rewrite <- ?app_assoc, ?lookup_insert_eq; repeat split; reflexivity.
Qed.

(** A pick that is not the current selection: Deselect, then Select. *)
Lemma update_new_unfold (intersects : list Intersection) (hit : Intersection) (s : App) :
  last intersects = Some hit -> differs (object hit) (selected s) = true ->
  update intersects s = select_block (object hit) (state_of (deselect s)).
Proof.
  intros [Hlen Hidx]%lookup_last_index Hsel.
  destruct (deselect_fields s) as (Hdes & _).
  unfold update. rewrite Hlen. unfold intersect_object. rewrite Hidx.
  unfold bind at 1. unfold ret at 1. unfold bind at 1. unfold read at 1.
  rewrite Hsel. unfold bind at 1. rewrite Hdes.
  reflexivity.
Qed.

(** A pick that is not the current selection, field by field. *)
Lemma update_new (intersects : list Intersection) (hit : Intersection) (s : App) :
  last intersects = Some hit -> differs (object hit) (selected s) = true ->
  let c := update intersects s in
  let mesh := object hit in
  completes c = match muralData s with Some _ => true | None => false end /\
  selected (state_of c) = Some mesh /\
  effects (state_of c)
    = (effects s ++ deselect_effects s ++ select_effects s mesh)%list /\
  logElement (state_of c) = (select_log s mesh ++ logElement s)%list /\
  materials (state_of c) !! mesh_material (scene s mesh) = Some (1 # 4) /\
  visibility (caption (state_of c))
    = match resolve s mesh with Some _ => "visible" | None => "hidden" end /\
  innerText (caption (state_of c))
    = match resolve s mesh with
      | Some fd => figure_caption fd
      | None => innerText (caption s)
      end /\
  visibility (detail (state_of c)) = visibility (detail s) /\
  innerText (detail (state_of c))
    = match resolve s mesh with
      | Some fd => figure_detail fd
      | None => innerText (detail s)
      end.
Proof.
  intros Hlast Hsel. cbv zeta.
  rewrite (update_new_unfold intersects hit s Hlast Hsel).
  destruct (deselect_fields s)
    as (_ & Hnone & Heff & Hcv & Hct & Hdet & Hlog & Hsc & Hmd).
  cbv zeta in *.
  set (s1 := state_of (deselect s)) in *.
  destruct (select_block_fields (object hit) s1 Hnone)
    as (Hc & Hs & He & Hl & Hm & Hv & Ht & Hdv & Hdt).
  assert (Hres : resolve s1 (object hit) = resolve s (object hit)).
  { unfold resolve. now rewrite Hmd, Hsc. }
  assert (Hse : select_effects s1 (object hit) = select_effects s (object hit)).
  { unfold select_effects. now rewrite Hres, Hsc. }
  assert (Hsl : select_log s1 (object hit) = select_log s (object hit)).
  { unfold select_log. now rewrite Hres, Hsc, Hmd. }
  rewrite Hres, Hmd, Hsc, ?Hse, ?Hsl, ?Heff, ?Hlog, ?Hcv, ?Hct, ?Hdet in *.
  rewrite <- app_assoc in He.
  repeat split; assumption.
Qed.

Lemma update_selected (intersects : list Intersection) (hit : Intersection) (s : App) :
  last intersects = Some hit ->
  selected (state_of (update intersects s)) = Some (object hit).
Proof.
  intros Hlast.
  destruct (differs (object hit) (selected s)) eqn:Hd.
  - now apply update_new.
  - apply differs_false in Hd. now rewrite (update_same _ hit).
Qed.

Lemma farthest_is_last (intersects : list Intersection) (hit : Intersection) :
  Sorted by_distance intersects -> last intersects = Some hit ->
  forall h : Intersection, h ∈ intersects -> distance h <= distance hit.
Proof.
  intros Hs. apply Sorted_StronglySorted in Hs.
  2: { intros a b c. unfold by_distance. apply Qle_trans. }
  induction Hs as [|a l Hl IH Ha]; intros Hlast h Hin.
  - discriminate.
  - destruct l as [|b l'].
    + injection Hlast as <-. apply list_elem_of_singleton in Hin as ->. apply Qle_refl.
    + change (last (b :: l') = Some hit) in Hlast.
      apply elem_of_cons in Hin as [-> | Hin].
      * rewrite Forall_forall in Ha. apply Ha, last_Some_elem_of, Hlast.
      * now apply IH.
Qed.

Lemma highlights_app (a b : list Effect) :
  highlights (a ++ b) = (highlights a + highlights b)%nat.
Proof. induction a as [|e a IH]; simpl; [reflexivity | rewrite IH; lia]. Qed.

Lemma highlights_deselect (s : App) : highlights (deselect_effects s) = 0%nat.
Proof. unfold deselect_effects. now destruct (selected s). Qed.

Lemma highlights_select (s : App) (mesh : positive) :
  highlights (select_effects s mesh) = 1%nat.
Proof. unfold select_effects. now destruct (resolve s mesh). Qed.

Lemma frames_same (m : positive) (hits : list (list Intersection)) (s : App) :
  Forall (fun intersects => object <$> last intersects = Some m) hits ->
  selected s = Some m -> frames hits s = s.
Proof.
  intros Hall Hsel. induction Hall as [|intersects hits Hpick _ IH]; [reflexivity|].
  unfold frames. simpl.
  destruct (last intersects) as [hit|] eqn:Hlast; [|discriminate].
  injection Hpick as Hpick.
  rewrite (update_same _ hit); [exact IH | exact Hlast | congruence].
Qed.

(** ** The selection controller *)

(** C5: for every non-empty hit-test result the frame update leaves the
    object of the last entry selected; when the list is ordered nearest
    first that entry is the farthest intersection, and the first entry's
    object is not the one selected unless it is also the last. *)
Theorem update_selects_last
    (intersects : list Intersection) (hit : Intersection) (s : App) :
  last intersects = Some hit ->
  Sorted by_distance intersects ->
  selected (state_of (update intersects s)) = Some (object hit) /\
  (forall h : Intersection, h ∈ intersects -> distance h <= distance hit) /\
  (forall first : Intersection, head intersects = Some first ->
     object first <> object hit ->
     selected (state_of (update intersects s)) <> Some (object first)).
Proof.
  intros Hlast Hsorted.
  pose proof (update_selected intersects hit s Hlast) as Hsel.
  split; [exact Hsel|]. split.
  - now apply farthest_is_last.
  - intros first _ Hne. rewrite Hsel. congruence.
Qed.

Lemma update_selects_last_witness :
  last [hit_near; hit_far] = Some hit_far /\
  Sorted by_distance [hit_near; hit_far] /\
  selected (state_of (update [hit_near; hit_far] demo_loaded)) = Some 2%positive.
Proof.
  assert (Hs : Sorted by_distance [hit_near; hit_far]).
  { repeat constructor. unfold by_distance, Qle. simpl. lia. }
  split; [reflexivity|]. split; [exact Hs|].
  exact (proj1 (update_selects_last [hit_near; hit_far] hit_far demo_loaded eq_refl Hs)).
Defined.

(** C6: when every frame of a run picks the same item, a frame that
    finds it already selected changes nothing at all, the whole run
    leaves the state its first frame leaves, and if the item was not
    selected before, the run applies exactly one highlight. *)
Theorem reselect_idempotent (m : positive) (first : list Intersection)
    (rest : list (list Intersection)) (s : App) :
  Forall (fun intersects => object <$> last intersects = Some m) (first :: rest) ->
  (selected s = Some m -> update first s = Normal tt s) /\
  frames (first :: rest) s = state_of (update first s) /\
  (selected s <> Some m ->
     highlights (effects (frames (first :: rest) s)) = S (highlights (effects s))).
Proof.
  intros Hall. apply Forall_cons in Hall as [Hfirst Hrest].
  destruct (last first) as [hit|] eqn:Hlast; [|discriminate].
  injection Hfirst as Hfirst.
  assert (Hrun : frames (first :: rest) s = state_of (update first s)).
  { change (frames (first :: rest) s) with (frames rest (state_of (update first s))).
    apply (frames_same m); [exact Hrest|].
    rewrite (update_selected _ hit) by exact Hlast. congruence. }
  split; [|split].
  - intros Hsel. apply (update_same _ hit); congruence.
  - exact Hrun.
  - intros Hne. rewrite Hrun.
    assert (Hd : differs (object hit) (selected s) = true).
    { apply differs_true. congruence. }
    destruct (update_new first hit s Hlast Hd) as (_ & _ & -> & _).
    rewrite !highlights_app, highlights_deselect, highlights_select. lia.
Qed.

Lemma reselect_idempotent_witness :
  Forall (fun intersects => object <$> last intersects = Some 1%positive)
    [[hit_near]; [hit_far; hit_near]; [hit_near]] /\
  selected demo_loaded <> Some 1%positive /\
  highlights (effects (frames [[hit_near]; [hit_far; hit_near]; [hit_near]] demo_loaded))
    = S (highlights (effects demo_loaded)).
Proof.
  assert (Hall : Forall (fun intersects => object <$> last intersects = Some 1%positive)
                   [[hit_near]; [hit_far; hit_near]; [hit_near]]).
  { repeat constructor. }
  assert (Hne : selected demo_loaded <> Some 1%positive) by discriminate.
  split; [exact Hall|]. split; [exact Hne|].
  exact (proj2 (proj2 (reselect_idempotent 1 [hit_near]
                         [[hit_far; hit_near]; [hit_near]] demo_loaded Hall)) Hne).
Defined.

(** C7: when a frame update moves the selection from item [a] to a
    different item, the writes it performs are, in this order, the
    Deselect of [a] (opacity 0, caption hidden) and then the Select of the
    new item (opacity .25, then the caption of its figure if it has one). *)
Theorem deselect_precedes_select (a : positive)
    (intersects : list Intersection) (hit : Intersection) (s : App) :
  selected s = Some a ->
  last intersects = Some hit ->
  a <> object hit ->
  effects (state_of (update intersects s))
    = (effects s
       ++ [MaterialOpacity (mesh_material (scene s a)) 0; CaptionVisibility "hidden"]
       ++ MaterialOpacity (mesh_material (scene s (object hit))) (1 # 4)
            :: caption_effects (resolve s (object hit)))%list.
Proof.
  intros Hsel Hlast Hne.
  assert (Hd : differs (object hit) (selected s) = true).
  { apply differs_true. congruence. }
  destruct (update_new intersects hit s Hlast Hd) as (_ & _ & -> & _).
  unfold deselect_effects, select_effects. now rewrite Hsel.
Qed.

Lemma deselect_precedes_select_witness :
  selected demo_disclosed = Some 1%positive /\
  last [hit_near; hit_far] = Some hit_far /\
  1%positive <> object hit_far /\
  effects (state_of (update [hit_near; hit_far] demo_disclosed))
    = (effects demo_disclosed
       ++ [MaterialOpacity 1 0; CaptionVisibility "hidden";
           MaterialOpacity 2 (1 # 4); CaptionVisibility "visible";
           CaptionText "B"; DetailText "Long B"])%list.
Proof.
  assert (Hne : 1%positive <> object hit_far) by discriminate.
  split; [reflexivity|]. split; [reflexivity|]. split; [exact Hne|].
  exact (deselect_precedes_select 1 [hit_near; hit_far] hit_far demo_disclosed
           eq_refl eq_refl Hne).
Defined.

(** C10: selection is compared by object, not by name.  When the pick is
    another mesh object than the selected one, the frame update is not a
    no-op even if both carry the same name: it clears the old highlight,
    hides the caption, highlights the new object, resolves the name again
    (logging it and the figure found) and leaves the new object selected. *)
Theorem selection_by_object_identity (a : positive)
    (intersects : list Intersection) (hit : Intersection) (s : App) :
  selected s = Some a ->
  last intersects = Some hit ->
  a <> object hit ->
  mesh_name (scene s a) = mesh_name (scene s (object hit)) ->
  update intersects s <> Normal tt s /\
  selected (state_of (update intersects s)) = Some (object hit) /\
  effects (state_of (update intersects s))
    = (effects s
       ++ [MaterialOpacity (mesh_material (scene s a)) 0; CaptionVisibility "hidden";
           MaterialOpacity (mesh_material (scene s (object hit))) (1 # 4)]
       ++ caption_effects (resolve s a))%list /\
  logElement (state_of (update intersects s))
    = (select_log s a ++ logElement s)%list.
Proof.
  intros Hsel Hlast Hne Hname.
  assert (Hd : differs (object hit) (selected s) = true).
  { apply differs_true. congruence. }
  assert (Hres : resolve s (object hit) = resolve s a).
  { unfold resolve. now rewrite Hname. }
  assert (Hlog : select_log s (object hit) = select_log s a).
  { unfold select_log. now rewrite Hres, Hname. }
  destruct (update_new intersects hit s Hlast Hd) as (_ & Hs & He & Hl & _).
  split; [|split; [exact Hs|split]].
  - intros Heq. rewrite Heq in Hs. simpl in Hs. congruence.
  - rewrite He. unfold deselect_effects, select_effects.
    now rewrite Hsel, Hres, <- !app_assoc.
  - now rewrite Hl, Hlog.
Qed.

Lemma selection_by_object_identity_witness :
  selected demo_disclosed = Some 1%positive /\
  last [hit_twin] = Some hit_twin /\
  1%positive <> object hit_twin /\
  mesh_name (scene demo_disclosed 1) = mesh_name (scene demo_disclosed (object hit_twin)) /\
  selected (state_of (update [hit_twin] demo_disclosed)) = Some 4%positive.
Proof.
  assert (Hne : 1%positive <> object hit_twin) by discriminate.
  split; [reflexivity|]. split; [reflexivity|]. split; [exact Hne|].
  split; [reflexivity|].
  exact (proj1 (proj2 (selection_by_object_identity 1 [hit_twin] hit_twin
                         demo_disclosed eq_refl eq_refl Hne eq_refl))).
Defined.

Lemma findFigure_loop_first_match (t : string) (fs : list FigureData) :
  first_match t fs (findFigure_loop t fs).
Proof.
  induction fs as [|f fs IH]; simpl.
  - intros f Hin. inversion Hin.
  - destruct (String.eqb (tag f) t) eqn:Heq.
    + apply String.eqb_eq in Heq. exists 0%nat.
      split; [reflexivity|]. split; [exact Heq|]. intros j g Hj. lia.
    + apply String.eqb_neq in Heq.
      destruct (findFigure_loop t fs) as [r|]; simpl in *.
      * destruct IH as (i & Hi & Ht & Hbefore). exists (S i).
        split; [exact Hi|]. split; [exact Ht|].
        intros [|j] g Hj Hg.
        -- injection Hg as <-. exact Heq.
        -- apply (Hbefore j); [lia | exact Hg].
      * intros g [-> | Hin]%elem_of_cons; [exact Heq | now apply IH].
Qed.

(** C9: with the mural description loaded, [findFigure] returns, without
    changing anything, the first figure in order whose tag is exactly the
    given one, and null when no figure has it.  When it returns null for
    the name of a newly picked mesh, the frame update still completes:
    the mesh is selected and highlighted and the caption stays hidden
    with its text untouched. *)
Theorem findFigure_first_match_or_null (t : string) (md : MuralData) (s : App) :
  muralData s = Some md ->
  (exists r : option FigureData,
     findFigure t s = Normal r s /\ first_match t (figures md) r) /\
  (forall (intersects : list Intersection) (hit : Intersection),
     last intersects = Some hit ->
     differs (object hit) (selected s) = true ->
     findFigure (mesh_name (scene s (object hit))) s = Normal None s ->
     let c := update intersects s in
     completes c = true /\
     selected (state_of c) = Some (object hit) /\
     materials (state_of c) !! mesh_material (scene s (object hit)) = Some (1 # 4) /\
     visibility (caption (state_of c)) = "hidden" /\
     innerText (caption (state_of c)) = innerText (caption s) /\
     effects (state_of c)
       = (effects s ++ deselect_effects s
          ++ [MaterialOpacity (mesh_material (scene s (object hit))) (1 # 4)])%list).
Proof.
  intros Hmd. split.
  - exists (findFigure_loop t (figures md)). split.
    + unfold findFigure, bind, read, ret. now rewrite Hmd.
    + apply findFigure_loop_first_match.
  - intros intersects hit Hlast Hd Hnull.
    assert (Hres : resolve s (object hit) = None).
    { unfold findFigure, bind, read, ret in Hnull. unfold resolve.
      rewrite Hmd in *. congruence. }
    destruct (update_new intersects hit s Hlast Hd)
      as (Hc & Hs & He & _ & Hm & Hv & Ht & _).
    unfold select_effects in He. rewrite Hres in *. rewrite Hmd in Hc.
    simpl in He. repeat split; assumption.
Qed.

Lemma findFigure_first_match_or_null_witness :
  muralData demo_loaded
    = Some {| mural_scale := Some 1; figures := figures demo_mural |} /\
  findFigure "fig1" demo_loaded
    = Normal (Some {| tag := "fig1"; figure_caption := "A"; figure_detail := "Long A" |})
        demo_loaded /\
  findFigure "wall" demo_loaded = Normal None demo_loaded /\
  completes (update [hit_near; hit_wall] demo_loaded) = true /\
  visibility (caption (state_of (update [hit_near; hit_wall] demo_loaded))) = "hidden".
Proof.
  assert (Hmd : muralData demo_loaded
                = Some {| mural_scale := Some 1; figures := figures demo_mural |})
    by reflexivity.
  pose proof (findFigure_first_match_or_null "fig1" _ demo_loaded Hmd) as [_ Hupd].
  specialize (Hupd [hit_near; hit_wall] hit_wall eq_refl eq_refl eq_refl).
  split; [exact Hmd|]. split; [reflexivity|]. split; [reflexivity|].
  split; [exact (proj1 Hupd) | exact (proj1 (proj2 (proj2 (proj2 Hupd))))].
Defined.

(** With two figures tagged "fig1", the first one in order supplies the
    caption; a mesh whose name has no figure is highlighted and the caption
    stays as it was. *)
Example select_fig1_caption :
  innerText (caption (state_of (update [hit_near] demo_loaded))) = "A".
Proof. reflexivity. Qed.

Example select_unknown_tag :
  completes (update [hit_wall] demo_loaded) = true /\
  shown (state_of (update [hit_wall] demo_loaded)) = ("hidden", "hidden") /\
  innerText (caption (state_of (update [hit_wall] demo_loaded))) = "" /\
  materials (state_of (update [hit_wall] demo_loaded)) !! 3%positive = Some (1 # 4).
Proof. vm_compute. auto. Qed.

(** ** The disclosure UI *)

(** With caption and detail both on screen, a Hide leaves the detail
    visible, so the UI is not in the Hidden state and a tap on the detail
    still changes what is on screen. *)
Lemma hide_leaves_detail_visible : ~ hide_resets_disclosure demo_disclosed.
Proof. intros (H & _). lazy in H. discriminate. Qed.

(** C3, as the code has it: a Hide always completes, hides the caption
    and leaves the detail element as it was, so the UI is Hidden
    afterwards unless the detail was visible before; a tap on the detail
    then leaves both elements hidden. *)
Theorem hide_hides_caption_only (s : App) :
  let s' := state_of (deselect s) in
  completes (deselect s) = true /\
  detail s' = detail s /\
  shown s' = ("hidden", visibility (detail s)) /\
  disclosure s'
    = (if String.eqb (visibility (detail s)) "visible" then None else Some Hidden) /\
  shown (state_of (tapDetail s')) = ("hidden", "hidden").
Proof.
  destruct (deselect_fields s) as (Hc & _ & _ & Hv & _ & Hd & _).
  cbv zeta in *. split; [now rewrite Hc|]. split; [exact Hd|].
  unfold shown, disclosure. rewrite Hd, Hv. split; [reflexivity|].
  split; [reflexivity|].
  unfold tapDetail, displayDetail, set_detail_visibility, modify. simpl.
  now rewrite Hv.
Qed.

(** With the detail of "fig1" on screen, moving the reticle to "fig2",
    whose figure record exists, leaves the detail element visible. *)
Lemma select_leaves_detail_visible :
  differs (object hit_far) (selected demo_disclosed) = true /\
  is_Some (resolve demo_disclosed (object hit_far)) /\
  ~ select_resets_detail [hit_near; hit_far] demo_disclosed.
Proof.
  split; [reflexivity|]. split; [eexists; reflexivity|].
  intros H. lazy in H. discriminate.
Qed.

(** C4, as the code has it: when the selection changes to an item whose
    figure record is found, the frame update completes, shows the caption
    with the figure's caption text, puts the figure's detail text into the
    detail element, and leaves that element's visibility as it was. *)
Theorem select_keeps_detail_visibility
    (intersects : list Intersection) (hit : Intersection) (fd : FigureData) (s : App) :
  last intersects = Some hit ->
  differs (object hit) (selected s) = true ->
  resolve s (object hit) = Some fd ->
  let c := update intersects s in
  completes c = true /\
  visibility (detail (state_of c)) = visibility (detail s) /\
  innerText (detail (state_of c)) = figure_detail fd /\
  visibility (caption (state_of c)) = "visible" /\
  innerText (caption (state_of c)) = figure_caption fd.
Proof.
  intros Hlast Hd Hres.
  destruct (update_new intersects hit s Hlast Hd)
    as (Hc & _ & _ & _ & _ & Hcv & Hct & Hdv & Hdt).
  rewrite Hres in *.
  assert (Hmd : exists md, muralData s = Some md).
  { unfold resolve in Hres. destruct (muralData s); [eauto | discriminate]. }
  destruct Hmd as [md Hmd]. rewrite Hmd in Hc.
  repeat split; assumption.
Qed.

Lemma select_keeps_detail_visibility_witness :
  last [hit_near; hit_far] = Some hit_far /\
  differs (object hit_far) (selected demo_disclosed) = true /\
  resolve demo_disclosed (object hit_far)
    = Some {| tag := "fig2"; figure_caption := "B"; figure_detail := "Long B" |} /\
  visibility (detail (state_of (update [hit_near; hit_far] demo_disclosed)))
    = visibility (detail demo_disclosed) /\
  innerText (detail (state_of (update [hit_near; hit_far] demo_disclosed))) = "Long B".
Proof.
  pose proof (select_keeps_detail_visibility [hit_near; hit_far] hit_far
                {| tag := "fig2"; figure_caption := "B"; figure_detail := "Long B" |}
                demo_disclosed eq_refl eq_refl eq_refl) as (_ & Hv & Ht & _).
  split; [reflexivity|]. split; [reflexivity|]. split; [reflexivity|].
  split; [exact Hv | exact Ht].
Defined.

(** ** The anchor controller *)

(** [applyOffset] by cases on the store and the name. *)
Lemma applyOffset_run (w : string) (s : App) :
  applyOffset w s =
  match wayspotData s with
  | None => Throws TypeError s
  | Some obj =>
      match obj !! w with
      | Some data =>
          Normal tt (with_rootContainer (offset_container data (rootContainer s)) s)
      | None => if inherited w then Throws TypeError s else Normal tt s
      end
  end.
Proof.
  destruct s as [cap det lg sc mat org rc sel wd md eff].
  unfold applyOffset, js_in, offset_container. js_unfold. simpl.
  destruct wd as [obj|]; [|reflexivity].
  destruct (obj !! w) as [[[p [rx ry rz] sc']]|]; [reflexivity|].
  destruct (inherited w); reflexivity.
Qed.

(** A tracking event handler, field by field. *)
Lemma handle_fields (k : TrackingEvent) (d : WayspotDetail) (s : App) :
  let c := handle k d s in
  let ok := lookup_completes s (detail_name d) in
  completes c = ok /\
  transform (rootContainer (state_of c))
    = match calibration s (detail_name d) with
      | Some entry => offset_transform (offset entry)
      | None => transform (rootContainer s)
      end /\
  visible (rootContainer (state_of c))
    = (if ok then visible_after k else visible (rootContainer s)) /\
  origin (state_of c) = (if ok then event_pose d else origin s) /\
  selected (state_of c) = selected s /\
  effects (state_of c) = effects s.
Proof.
  destruct s as [cap det lg sc mat org rc sel wd md eff].
  unfold lookup_completes, calibration, transform, offset_transform, event_pose.
  destruct k;
    unfold handle, wayspotFound, wayspotUpdated, wayspotLost, log, set_origin,
      set_visible, bind, modify;
    cbn -[applyOffset inherited lookup]; rewrite applyOffset_run;
    cbn -[inherited lookup];
    (destruct wd as [obj|]; [|repeat split; reflexivity]);
    (destruct (obj !! detail_name d) as [data|]; [repeat split; reflexivity|]);
    destruct (inherited (detail_name d)); repeat split; reflexivity.
Qed.

(** C1: after the handler of any tracking event for wayspot name [w],
    the content container's position, rotation and scale are those of the
    calibration entry of [w] if the store has one, and are what they were
    before otherwise; on a freshly initialised application, whose
    container is at the identity, an event without entry leaves it there. *)
Theorem offset_follows_calibration (k : TrackingEvent) (d : WayspotDetail) (s : App) :
  transform (rootContainer (state_of (handle k d s)))
    = match calibration s (detail_name d) with
      | Some entry => offset_transform (offset entry)
      | None => transform (rootContainer s)
      end /\
  forall (captionText detailText : string) (scene0 : positive -> Mesh)
         (arMode : bool) (store : gmap string WayspotEntry),
    let fresh :=
      state_of (wayspotsLoaded store (initialize captionText detailText scene0 arMode)) in
    transform (rootContainer (state_of (handle k d fresh)))
      = match store !! detail_name d with
        | Some entry => offset_transform (offset entry)
        | None => (zero3, zeroEuler, one3)
        end.
Proof.
  split.
  - apply handle_fields.
  - intros captionText detailText scene0 arMode store fresh.
    destruct (handle_fields k d fresh) as (_ & -> & _).
    reflexivity.
Qed.

(** Before [/wayspots.json] has been fetched, a Found event leaves the
    content root hidden: the handler throws before it sets the flag. *)
Lemma found_before_load_stays_hidden :
  ~ visibility_follows_event Found (demo_detail "wp1") demo_start.
Proof. unfold visibility_follows_event. simpl. discriminate. Qed.

(** C8, as the code has it: a handler runs to completion when the
    calibration store is loaded and the wayspot name is a key of it or is
    not a property name of [Object.prototype]; the content root is then
    visible after Found and Updated and hidden after Lost, whether or not
    the store has an entry for the name. *)
Theorem visibility_after_event (k : TrackingEvent) (d : WayspotDetail)
    (obj : gmap string WayspotEntry) (s : App) :
  wayspotData s = Some obj ->
  is_Some (obj !! detail_name d) \/ inherited (detail_name d) = false ->
  completes (handle k d s) = true /\
  visible (rootContainer (state_of (handle k d s))) = visible_after k.
Proof.
  intros Hstore Hkey.
  assert (Hok : lookup_completes s (detail_name d) = true).
  { unfold lookup_completes. rewrite Hstore.
    destruct Hkey as [[e ->] | Hinh]; [reflexivity|].
    destruct (obj !! detail_name d); [reflexivity | now rewrite Hinh]. }
  destruct (handle_fields k d s) as (Hc & _ & Hv & _).
  cbv zeta in *. rewrite Hok in *. now split.
Qed.

Lemma visibility_after_event_witness :
  wayspotData demo_loaded = Some demo_wayspots /\
  (is_Some (demo_wayspots !! detail_name (demo_detail "wp2"))
   \/ inherited (detail_name (demo_detail "wp2")) = false) /\
  completes (handle Lost (demo_detail "wp2") demo_loaded) = true /\
  visible (rootContainer (state_of (handle Lost (demo_detail "wp2") demo_loaded))) = false.
Proof.
  assert (Hkey : is_Some (demo_wayspots !! detail_name (demo_detail "wp2"))
                 \/ inherited (detail_name (demo_detail "wp2")) = false)
    by (right; reflexivity).
  split; [reflexivity|]. split; [exact Hkey|].
  exact (visibility_after_event Lost (demo_detail "wp2") demo_wayspots demo_loaded
           eq_refl Hkey).
Defined.

(** A Found event for "wp1" puts the container at the entry's offset;
    one for "wp2", which has no entry, leaves it where it was; one for a
    name that every object inherits makes the handler throw. *)
Example found_wp1_sets_position :
  position (rootContainer (state_of (handle Found (demo_detail "wp1") demo_loaded)))
    = {| v_x := 1; v_y := 0; v_z := 0 |}.
Proof. reflexivity. Qed.

Example found_wp2_keeps_position :
  transform (rootContainer (state_of (handle Found (demo_detail "wp2") demo_loaded)))
    = transform (rootContainer demo_loaded).
Proof. reflexivity. Qed.

Example found_inherited_name_throws :
  completes (handle Found (demo_detail "toString") demo_loaded) = false.
Proof. reflexivity. Qed.

(** ** Reading the stores before they are loaded *)

(** Before either fetch has resolved, a Found event makes its handler
    throw, and so does a frame whose reticle rests on a mesh. *)
Lemma unloaded_stores_throw :
  ~ safe_while_unloaded Found (demo_detail "wp1") [hit_near] demo_start.
Proof. intros [H _]. specialize (H eq_refl). simpl in H. discriminate. Qed.

(** C2, as the code has it: the stores are read without a guard.  While
    [wayspotData] is unloaded every tracking handler throws before it has
    touched the container, the origin or the visibility, whereas on a
    loaded store a name that is not found is a no-op and the handler
    completes.  The frame update completes when nothing is hit, when the
    pick is already selected, or when [muralData] is loaded; a change of
    selection while it is unloaded throws. *)
Theorem stores_read_unguarded (k : TrackingEvent) (d : WayspotDetail)
    (intersects : list Intersection) (s : App) :
  (wayspotData s = None ->
     completes (handle k d s) = false /\
     transform (rootContainer (state_of (handle k d s))) = transform (rootContainer s) /\
     visible (rootContainer (state_of (handle k d s))) = visible (rootContainer s) /\
     origin (state_of (handle k d s)) = origin s) /\
  (forall obj : gmap string WayspotEntry,
     wayspotData s = Some obj ->
     obj !! detail_name d = None ->
     inherited (detail_name d) = false ->
     completes (handle k d s) = true /\
     transform (rootContainer (state_of (handle k d s))) = transform (rootContainer s)) /\
  completes (update intersects s)
    = match last intersects with
      | Some hit =>
          if differs (object hit) (selected s)
          then match muralData s with Some _ => true | None => false end
          else true
      | None => true
      end.
Proof.
  destruct (handle_fields k d s) as (Hc & Ht & Hv & Ho & _).
  cbv zeta in *. unfold lookup_completes, calibration in *.
  split; [|split].
  - intros Hnone. rewrite Hnone in *. now rewrite Hc, Ht, Hv, Ho.
  - intros obj Hstore Hkey Hinh. rewrite Hstore, Hkey, ?Hinh in *.
    now rewrite Hc, Ht.
  - destruct (last intersects) as [hit|] eqn:Hlast.
    + destruct (differs (object hit) (selected s)) eqn:Hd.
      * exact (proj1 (update_new intersects hit s Hlast Hd)).
      * apply differs_false in Hd. now rewrite (update_same _ hit).
    + apply last_None in Hlast as ->. rewrite update_no_hit.
      destruct (deselect_fields s) as (-> & _). reflexivity.
Qed.

Lemma stores_read_unguarded_witness :
  wayspotData demo_start = None /\
  completes (handle Updated (demo_detail "wp1") demo_start) = false /\
  wayspotData demo_loaded = Some demo_wayspots /\
  demo_wayspots !! detail_name (demo_detail "wp2") = None /\
  inherited (detail_name (demo_detail "wp2")) = false /\
  completes (handle Updated (demo_detail "wp2") demo_loaded) = true.
Proof.
  split; [reflexivity|]. split.
  { exact (proj1 (proj1 (stores_read_unguarded Updated (demo_detail "wp1") []
                           demo_start) eq_refl)). }
  split; [reflexivity|]. split; [reflexivity|]. split; [reflexivity|].
  exact (proj1 (proj1 (proj2 (stores_read_unguarded Updated (demo_detail "wp2") []
                                demo_loaded))
                  demo_wayspots eq_refl eq_refl eq_refl)).
Defined.

(** ** Further facts about the callbacks *)

(** What a Deselect leaves alone, and what it does to the materials. *)
Lemma deselect_frame (s : App) :
  let s' := state_of (deselect s) in
  materials s'
    = match selected s with
      | Some old => <[mesh_material (scene s old) := 0]> (materials s)
      | None => materials s
      end /\
  rootContainer s' = rootContainer s /\
  origin s' = origin s /\
  wayspotData s' = wayspotData s.
Proof.
  destruct s as [cap det lg sc mat org rc sel wd md eff]. js_unfold.
  destruct sel; cbn; repeat split; reflexivity.
Qed.

(** The same for the statements after [deselect]. *)
Lemma select_block_frame (mesh : positive) (s : App) :
  let s' := state_of (select_block mesh s) in
  materials s' = <[mesh_material (scene s mesh) := 1 # 4]> (materials s) /\
  scene s' = scene s /\
  muralData s' = muralData s /\
  rootContainer s' = rootContainer s /\
  origin s' = origin s /\
  wayspotData s' = wayspotData s.
Proof.
  destruct s as [cap det lg sc mat org rc sel wd md eff].
  unfold select_block. js_unfold.
  destruct md as [md|]; cbn; [destruct (findFigure_loop _ _); cbn|];
    repeat split; reflexivity.
Qed.

(** The three ways a frame update can go. *)
Lemma update_cases (intersects : list Intersection) (s : App) :
  (intersects = [] /\ update intersects s = deselect s) \/
  (exists hit, last intersects = Some hit /\ selected s = Some (object hit) /\
     update intersects s = Normal tt s) \/
  (exists hit, last intersects = Some hit /\ selected s <> Some (object hit) /\
     update intersects s = select_block (object hit) (state_of (deselect s))).
Proof.
  destruct (last intersects) as [hit|] eqn:Hlast.
  - right. destruct (differs (object hit) (selected s)) eqn:Hd.
    + right. exists hit. split; [reflexivity|]. split.
      * now apply differs_true.
      * now apply (update_new_unfold _ hit).
    + left. exists hit. apply differs_false in Hd.
      split; [reflexivity|]. split; [exact Hd|]. now apply (update_same _ hit).
  - left. apply last_None in Hlast as ->. split; reflexivity.
Qed.

(** A frame update never touches the anchor or the stores. *)
Lemma update_frame (intersects : list Intersection) (s : App) :
  let s' := state_of (update intersects s) in
  rootContainer s' = rootContainer s /\
  origin s' = origin s /\
  wayspotData s' = wayspotData s /\
  muralData s' = muralData s /\
  scene s' = scene s.
Proof.
  cbv zeta.
  destruct (deselect_fields s) as (_ & _ & _ & _ & _ & _ & _ & Hsc & Hmd).
  destruct (deselect_frame s) as (_ & Hrc & Hor & Hwd).
  cbv zeta in *.
  destruct (update_cases intersects s)
    as [[_ ->] | [(hit & _ & _ & ->) | (hit & _ & _ & ->)]].
  - repeat split; assumption.
  - repeat split; reflexivity.
  - destruct (select_block_frame (object hit) (state_of (deselect s)))
      as (_ & Hsc' & Hmd' & Hrc' & Hor' & Hwd').
    cbv zeta in *. rewrite Hsc', Hmd', Hrc', Hor', Hwd'.
    repeat split; assumption.
Qed.

(** A tracking handler never touches the selection, the materials, the
    two elements or the stores. *)
Lemma handle_frame (k : TrackingEvent) (d : WayspotDetail) (s : App) :
  let s' := state_of (handle k d s) in
  caption s' = caption s /\
  detail s' = detail s /\
  materials s' = materials s /\
  scene s' = scene s /\
  wayspotData s' = wayspotData s /\
  muralData s' = muralData s.
Proof.
  destruct s as [cap det lg sc mat org rc sel wd md eff].
  destruct k;
    unfold handle, wayspotFound, wayspotUpdated, wayspotLost, log, set_origin,
      set_visible, bind, modify;
    cbn -[applyOffset inherited lookup]; rewrite applyOffset_run;
    cbn -[inherited lookup];
    (destruct wd as [obj|]; [|repeat split; reflexivity]);
    (destruct (obj !! detail_name d) as [data|]; [repeat split; reflexivity|]);
    destruct (inherited (detail_name d)); repeat split; reflexivity.
Qed.

(** A tap only writes the detail's visibility. *)
Lemma tap_fields (s : App) :
  let s1 := state_of (tapCaption s) in
  let s2 := state_of (tapDetail s) in
  visibility (detail s1)
    = (if String.eqb (visibility (detail s)) "visible" then "hidden" else "visible") /\
  visibility (detail s2) = "hidden" /\
  observable s1
    = observable (with_detail {| visibility := visibility (detail s1);
                                 innerText := innerText (detail s) |} s) /\
  observable s2
    = observable (with_detail {| visibility := "hidden";
                                 innerText := innerText (detail s) |} s).
Proof.
  destruct s as [cap det lg sc mat org rc sel wd md eff]. js_unfold.
  cbn. repeat split; reflexivity.
Qed.

(** The callbacks of the two fetches only store the document. *)
Lemma loaded_fields (s : App) :
  (forall data : MuralData,
     let s' := state_of (muralLoaded data s) in
     completes (muralLoaded data s) = true /\
     (exists scale0 : number,
        muralData s' = Some {| mural_scale := Some scale0; figures := figures data |} /\
        ~ scale0 == 0 /\
        (forall q : number, mural_scale data = Some q -> ~ q == 0 -> scale0 = q) /\
        (mural_scale data = None -> scale0 = 1)) /\
     observable s' = observable (with_muralData (muralData s') s)) /\
  (forall data : gmap string WayspotEntry,
     let s' := state_of (wayspotsLoaded data s) in
     completes (wayspotsLoaded data s) = true /\
     s' = with_wayspotData (Some data) s).
Proof.
  destruct s as [cap det lg sc mat org rc sel wd md eff].
  split; [|intros data; split; reflexivity].
  intros [[q|] figs]; unfold muralLoaded; js_unfold; cbn.
  - destruct (Qeq_bool q 0) eqn:Hq; cbn.
    + split; [reflexivity|]. split; [|reflexivity]. exists 1.
      split; [reflexivity|]. split; [discriminate|]. split; [|discriminate].
      intros q' [= <-] Hne. apply Qeq_bool_iff in Hq. contradiction.
    + split; [reflexivity|]. split; [|reflexivity]. exists q.
      split; [reflexivity|]. split.
      * intros Heq. apply Qeq_bool_iff in Heq. congruence.
      * split; [intros q' [= <-] _; reflexivity | discriminate].
  - split; [reflexivity|]. split; [|reflexivity]. exists 1.
    split; [reflexivity|]. split; [discriminate|].
    split; [discriminate | reflexivity].
Qed.

Lemma highlight_consistent_ext (s s' : App) :
  selected s' = selected s -> materials s' = materials s -> scene s' = scene s ->
  highlight_consistent s -> highlight_consistent s'.
Proof.
  intros Hsel Hmat Hsc [H1 H2]. split.
  - intros mesh. rewrite Hsel, Hmat, Hsc. apply H1.
  - intros m v. rewrite Hsel, Hmat, Hsc. apply H2.
Qed.

Lemma observable_fields (s s' : App) :
  observable s' = observable s ->
  caption s' = caption s /\ detail s' = detail s /\ selected s' = selected s /\
  materials s' = materials s /\ scene s' = scene s /\
  rootContainer s' = rootContainer s /\ origin s' = origin s /\
  wayspotData s' = wayspotData s /\ muralData s' = muralData s.
Proof.
  intros H.
  destruct s as [cap det lg sc mat org rc sel wd md eff].
  destruct s' as [cap' det' lg' sc' mat' org' rc' sel' wd' md' eff'].
  unfold observable, with_logElement, with_effects in H. simpl in H.
  injection H as -> -> -> -> -> -> -> -> ->. repeat split; reflexivity.
Qed.

(** After a Deselect from a consistent state no material is highlighted. *)
Lemma deselect_clears (s : App) :
  highlight_consistent s ->
  forall (m : positive) (v : number),
    materials (state_of (deselect s)) !! m = Some v -> v = 0.
Proof.
  intros [_ H2] m v.
  destruct (deselect_frame s) as (-> & _).
  destruct (selected s) as [old|] eqn:Hsel.
  - intros [[_ <-] | [Hne Hm]]%lookup_insert_Some; [reflexivity|].
    destruct (H2 m v Hm) as [-> | (_ & mesh & [= ->] & Heq)];
      [reflexivity | contradiction].
  - intros Hm.
    destruct (H2 m v Hm) as [-> | (_ & mesh & Hs & _)]; [reflexivity | discriminate].
Qed.

Lemma highlight_consistent_update (intersects : list Intersection) (s : App) :
  highlight_consistent s -> highlight_consistent (state_of (update intersects s)).
Proof.
  intros Hs.
  pose proof (deselect_clears s Hs) as Hclear.
  destruct (deselect_fields s) as (_ & Hnone & _ & _ & _ & _ & _ & Hsc & _).
  cbv zeta in *.
  destruct (update_cases intersects s)
    as [[_ ->] | [(hit & _ & _ & ->) | (hit & _ & _ & ->)]].
  - split.
    + intros mesh. rewrite Hnone. discriminate.
    + intros m v Hm. left. now apply (Hclear m).
  - exact Hs.
  - set (s1 := state_of (deselect s)) in *.
    destruct (select_block_fields (object hit) s1 Hnone) as (_ & Hsel & _).
    destruct (select_block_frame (object hit) s1) as (Hmat & Hsc' & _).
    cbv zeta in *. split.
    + intros mesh. rewrite Hsel, Hmat, Hsc'. intros [= <-].
      apply lookup_insert_eq.
    + intros m v. rewrite Hsel, Hmat, Hsc'.
      intros [[<- <-] | [_ Hm]]%lookup_insert_Some.
      * right. split; [reflexivity|]. now exists (object hit).
      * left. now apply (Hclear m).
Qed.

Lemma highlight_consistent_step (a : Action) (s : App) :
  highlight_consistent s -> highlight_consistent (step a s).
Proof.
  intros Hs. destruct a as [intersects | k d | | | data | data]; unfold step, perform.
  - now apply highlight_consistent_update.
  - destruct (handle_fields k d s) as (_ & _ & _ & _ & Hsel & _).
    destruct (handle_frame k d s) as (_ & _ & Hmat & Hsc & _).
    now apply (highlight_consistent_ext s).
  - destruct (tap_fields s) as (_ & _ & H & _).
    apply observable_fields in H as (_ & _ & Hsel & Hmat & Hsc & _).
    now apply (highlight_consistent_ext s).
  - destruct (tap_fields s) as (_ & _ & _ & H).
    apply observable_fields in H as (_ & _ & Hsel & Hmat & Hsc & _).
    now apply (highlight_consistent_ext s).
  - destruct (proj1 (loaded_fields s) data) as (_ & _ & H).
    apply observable_fields in H as (_ & _ & Hsel & Hmat & Hsc & _).
    now apply (highlight_consistent_ext s).
  - destruct (proj2 (loaded_fields s) data) as (_ & ->).
    now apply (highlight_consistent_ext s).
Qed.

Lemma run_snoc (acts : list Action) (a : Action) (s : App) :
  run (acts ++ [a]) s = step a (run acts s).
Proof. unfold run. now rewrite foldl_app. Qed.

(** X1: in every state the application can reach, the highlight follows
    the selection: the selected mesh's material has opacity [.25], and
    every material the program has written that is not the selected
    mesh's has opacity [0]. *)
Theorem highlight_follows_selection (acts : list Action)
    (captionText detailText : string) (scene0 : positive -> Mesh) (arMode : bool) :
  let s := run acts (initialize captionText detailText scene0 arMode) in
  (forall mesh : positive, selected s = Some mesh ->
     materials s !! mesh_material (scene s mesh) = Some (1 # 4)) /\
  (forall (m : positive) (v : number), materials s !! m = Some v ->
     v = 0 \/
     (v = (1 # 4) /\
      exists mesh : positive, selected s = Some mesh /\ mesh_material (scene s mesh) = m)).
Proof.
  cbv zeta.
  assert (H : highlight_consistent
                (run acts (initialize captionText detailText scene0 arMode))).
  { induction acts as [|a acts IH] using rev_ind.
    - split; [discriminate|]. intros m v Hm. simpl in Hm.
      rewrite lookup_empty in Hm. discriminate.
    - rewrite run_snoc. now apply highlight_consistent_step. }
  destruct H as [H1 H2]. split; assumption.
Qed.

Lemma highlight_follows_selection_witness :
  selected (run [MuralLoaded demo_mural; Frame [hit_near]; Frame [hit_near; hit_far]]
              (initialize "" "" demo_scene true)) = Some 2%positive /\
  materials (run [MuralLoaded demo_mural; Frame [hit_near]; Frame [hit_near; hit_far]]
               (initialize "" "" demo_scene true)) !! 2%positive = Some (1 # 4) /\
  materials (run [MuralLoaded demo_mural; Frame [hit_near]; Frame [hit_near; hit_far]]
               (initialize "" "" demo_scene true)) !! 1%positive = Some 0.
Proof.
  pose proof (highlight_follows_selection
                [MuralLoaded demo_mural; Frame [hit_near]; Frame [hit_near; hit_far]]
                "" "" demo_scene true) as [H1 _].
  split; [reflexivity|]. split; [exact (H1 2%positive eq_refl) | reflexivity].
Defined.

Lemma loaded_figures_app (a b : list Action) :
  loaded_figures (a ++ b) = (loaded_figures a ++ loaded_figures b)%list.
Proof.
  induction a as [|x a IH]; [reflexivity|].
  destruct x; simpl; rewrite IH; try reflexivity. now rewrite app_assoc.
Qed.

Lemma resolve_elem (s : App) (mesh : positive) (md : MuralData) (fd : FigureData) :
  muralData s = Some md -> resolve s mesh = Some fd ->
  fd ∈ figures md /\ tag fd = mesh_name (scene s mesh).
Proof.
  intros Hmd Hres. unfold resolve in Hres. rewrite Hmd in Hres.
  pose proof (findFigure_loop_first_match (mesh_name (scene s mesh)) (figures md)) as H.
  rewrite Hres in H. destruct H as (i & Hi & Ht & _).
  split; [now apply (list_elem_of_lookup_2 _ i) | exact Ht].
Qed.

Lemma caption_of_selection_ext (acts acts' : list Action) (s s' : App) :
  caption s' = caption s -> innerText (detail s') = innerText (detail s) ->
  selected s' = selected s -> scene s' = scene s ->
  (forall fd : FigureData, fd ∈ loaded_figures acts -> fd ∈ loaded_figures acts') ->
  (forall (md : MuralData) (fd : FigureData),
     muralData s' = Some md -> fd ∈ figures md -> fd ∈ loaded_figures acts') ->
  caption_of_selection acts s -> caption_of_selection acts' s'.
Proof.
  intros Hcap Hdet Hsel Hsc Hsub Hmd [_ Hshown]. split; [exact Hmd|].
  rewrite Hcap, Hdet, Hsel, Hsc. intros Hvis.
  destruct (Hshown Hvis) as (mesh & fd & H1 & H2 & H3 & H4 & H5).
  exists mesh, fd. repeat split; auto.
Qed.

Lemma caption_of_selection_step (acts : list Action) (a : Action) (s : App) :
  caption_of_selection acts s -> caption_of_selection (acts ++ [a]) (step a s).
Proof.
  intros Hs. pose proof Hs as [Hmd Hshown].
  assert (Hsub : forall fd : FigureData, fd ∈ loaded_figures acts ->
            fd ∈ loaded_figures (acts ++ [a])).
  { intros fd Hin. rewrite loaded_figures_app. apply elem_of_app. now left. }
  assert (Hkeep : forall s' : App, muralData s' = muralData s ->
            forall (md : MuralData) (fd : FigureData),
              muralData s' = Some md -> fd ∈ figures md ->
              fd ∈ loaded_figures (acts ++ [a])).
  { intros s' -> md fd H1 H2. apply Hsub. now apply (Hmd md). }
  destruct a as [intersects | k d | | | data | data]; unfold step, perform.
  - destruct (update_frame intersects s) as (_ & _ & _ & Hmd' & Hsc').
    cbv zeta in *. specialize (Hkeep _ Hmd').
    destruct (update_cases intersects s)
      as [[_ Hupd] | [(hit & _ & _ & Hupd) | (hit & Hlast & Hne & _)]].
    + split; [exact Hkeep|]. rewrite Hupd.
      destruct (deselect_fields s) as (_ & _ & _ & -> & _). discriminate.
    + rewrite Hupd in *. simpl in *.
      exact (caption_of_selection_ext acts _ s s eq_refl eq_refl eq_refl eq_refl
               Hsub Hkeep Hs).
    + apply differs_true in Hne.
      destruct (update_new intersects hit s Hlast Hne)
        as (_ & Hsel & _ & _ & _ & Hv & Hct & _ & Hdt).
      cbv zeta in *. split; [exact Hkeep|].
      rewrite Hv, Hct, Hdt, Hsel, Hsc'.
      destruct (resolve s (object hit)) as [fd|] eqn:Hres; [|discriminate].
      intros _. exists (object hit), fd.
      assert (Hl : exists md, muralData s = Some md).
      { unfold resolve in Hres. destruct (muralData s); [eauto | discriminate]. }
      destruct Hl as [md Hl].
      destruct (resolve_elem s (object hit) md fd Hl Hres) as [Hin Htag].
      split; [reflexivity|]. split; [apply Hsub; now apply (Hmd md)|].
      split; [exact Htag|]. split; reflexivity.
  - destruct (handle_fields k d s) as (_ & _ & _ & _ & Hsel & _).
    destruct (handle_frame k d s) as (Hcap & Hdet & _ & Hsc & _ & Hmd').
    cbv zeta in *.
    exact (caption_of_selection_ext acts _ s _ Hcap (f_equal innerText Hdet) Hsel Hsc
             Hsub (Hkeep _ Hmd') Hs).
  - destruct (tap_fields s) as (_ & _ & H & _).
    apply observable_fields in H
      as (Hcap & Hdet & Hsel & _ & Hsc & _ & _ & _ & Hmd').
    exact (caption_of_selection_ext acts _ s _ Hcap (f_equal innerText Hdet) Hsel Hsc
             Hsub (Hkeep _ Hmd') Hs).
  - destruct (tap_fields s) as (_ & _ & _ & H).
    apply observable_fields in H
      as (Hcap & Hdet & Hsel & _ & Hsc & _ & _ & _ & Hmd').
    exact (caption_of_selection_ext acts _ s _ Hcap (f_equal innerText Hdet) Hsel Hsc
             Hsub (Hkeep _ Hmd') Hs).
  - destruct (proj1 (loaded_fields s) data) as (_ & (q & Hnew & _) & H).
    cbv zeta in *.
    apply observable_fields in H as (Hcap & Hdet & Hsel & _ & Hsc & _).
    refine (caption_of_selection_ext acts _ s _ Hcap (f_equal innerText Hdet) Hsel Hsc
              Hsub _ Hs).
    intros md fd. rewrite Hnew. intros [= <-] Hin. simpl in Hin.
    rewrite loaded_figures_app. simpl.
    apply elem_of_app. right. apply elem_of_app. now left.
  - destruct (proj2 (loaded_fields s) data) as (_ & Heq).
    cbv zeta in Heq. rewrite Heq.
    exact (caption_of_selection_ext acts _ s _ eq_refl eq_refl eq_refl eq_refl
             Hsub (Hkeep _ eq_refl) Hs).
Qed.

(** X2: whenever the caption is on screen, a mesh is selected and the
    caption and detail elements hold the caption and detail of one and
    the same figure, a figure of a fetched mural document whose tag is the
    selected mesh's name. *)
Theorem caption_belongs_to_selection (acts : list Action)
    (captionText detailText : string) (scene0 : positive -> Mesh) (arMode : bool) :
  let s := run acts (initialize captionText detailText scene0 arMode) in
  visibility (caption s) = "visible" ->
  exists (mesh : positive) (fd : FigureData),
    selected s = Some mesh /\ fd ∈ loaded_figures acts /\
    tag fd = mesh_name (scene s mesh) /\
    innerText (caption s) = figure_caption fd /\
    innerText (detail s) = figure_detail fd.
Proof.
  cbv zeta.
  assert (H : caption_of_selection acts
                (run acts (initialize captionText detailText scene0 arMode))).
  { induction acts as [|a acts IH] using rev_ind.
    - split; [discriminate|]. simpl. discriminate.
    - rewrite run_snoc. now apply caption_of_selection_step. }
  exact (proj2 H).
Qed.

Lemma caption_belongs_to_selection_witness :
  visibility (caption (run [MuralLoaded demo_mural; Frame [hit_near; hit_far]]
                         (initialize "" "" demo_scene true))) = "visible" /\
  exists (mesh : positive) (fd : FigureData),
    selected (run [MuralLoaded demo_mural; Frame [hit_near; hit_far]]
                (initialize "" "" demo_scene true)) = Some mesh /\
    fd ∈ loaded_figures [MuralLoaded demo_mural; Frame [hit_near; hit_far]].
Proof.
  assert (Hv : visibility (caption (run [MuralLoaded demo_mural; Frame [hit_near; hit_far]]
                                      (initialize "" "" demo_scene true))) = "visible")
    by reflexivity.
  split; [exact Hv|].
  destruct (caption_belongs_to_selection
              [MuralLoaded demo_mural; Frame [hit_near; hit_far]]
              "" "" demo_scene true Hv) as (mesh & fd & H1 & H2 & _).
  exists mesh, fd. split; assumption.
Defined.

Lemma two_valued_step (a : Action) (s : App) :
  two_valued (visibility (caption s)) /\ two_valued (visibility (detail s)) ->
  two_valued (visibility (caption (step a s))) /\
  two_valued (visibility (detail (step a s))).
Proof.
  intros [Hc Hd].
  destruct a as [intersects | k d | | | data | data]; unfold step, perform.
  - destruct (deselect_fields s) as (_ & _ & _ & Hcv & _ & Hdet & _).
    cbv zeta in *.
    destruct (update_cases intersects s)
      as [[_ ->] | [(hit & _ & _ & ->) | (hit & Hlast & Hne & _)]].
    + rewrite Hcv, Hdet. split; [now right | exact Hd].
    + now split.
    + apply differs_true in Hne.
      destruct (update_new intersects hit s Hlast Hne)
        as (_ & _ & _ & _ & _ & -> & _ & -> & _).
      split; [|exact Hd]. destruct (resolve s (object hit)); [now left | now right].
  - destruct (handle_frame k d s) as (-> & -> & _). now split.
  - destruct (tap_fields s) as (Hv & _ & H & _).
    apply observable_fields in H as (-> & _). rewrite Hv.
    split; [exact Hc|]. destruct (String.eqb _ _); [now right | now left].
  - destruct (tap_fields s) as (_ & Hv & _ & H).
    apply observable_fields in H as (-> & _). rewrite Hv.
    split; [exact Hc | now right].
  - destruct (proj1 (loaded_fields s) data) as (_ & _ & H).
    apply observable_fields in H as (-> & -> & _). now split.
  - destruct (proj2 (loaded_fields s) data) as (_ & ->). now split.
Qed.

(** X3: in every state the application can reach, the style visibility
    of the caption and of the detail is exactly "visible" or "hidden", and
    two taps on the caption leave the detail element as it was. *)
Theorem double_tap_restores_detail (acts : list Action)
    (captionText detailText : string) (scene0 : positive -> Mesh) (arMode : bool) :
  let s := run acts (initialize captionText detailText scene0 arMode) in
  two_valued (visibility (caption s)) /\
  two_valued (visibility (detail s)) /\
  detail (step TapCaption (step TapCaption s)) = detail s.
Proof.
  cbv zeta.
  assert (H : two_valued (visibility (caption
                (run acts (initialize captionText detailText scene0 arMode)))) /\
              two_valued (visibility (detail
                (run acts (initialize captionText detailText scene0 arMode))))).
  { induction acts as [|a acts IH] using rev_ind.
    - split; now right.
    - rewrite run_snoc. now apply two_valued_step. }
  destruct H as [Hc Hd]. split; [exact Hc|]. split; [exact Hd|].
  set (s := run acts _) in *. clearbody s.
  destruct s as [cap [v t] lg sc mat org rc sel wd md eff].
  simpl in Hd. unfold step, perform. js_unfold. cbn.
  destruct Hd as [-> | ->]; reflexivity.
Qed.

(** A Deselect with nothing selected and the caption hidden changes
    nothing but the history of writes. *)
Lemma deselect_unselected (s : App) :
  selected s = None -> visibility (caption s) = "hidden" ->
  observable (state_of (deselect s)) = observable s.
Proof.
  destruct s as [[v t] det lg sc mat org rc sel wd md eff]. simpl.
  intros -> ->. reflexivity.
Qed.

(** X4: a Deselect repeated changes nothing more: it completes, and
    apart from the log and the history of writes the state after two is
    the state after one. *)
Theorem deselect_idempotent (s : App) :
  completes (deselect (state_of (deselect s))) = true /\
  observable (state_of (deselect (state_of (deselect s))))
    = observable (state_of (deselect s)).
Proof.
  destruct (deselect_fields s) as (_ & Hnone & _ & Hv & _).
  cbv zeta in *. set (s1 := state_of (deselect s)) in *. clearbody s1.
  split.
  - destruct (deselect_fields s1) as (-> & _). reflexivity.
  - now apply deselect_unselected.
Qed.

Lemma handle_observable (k : TrackingEvent) (d : WayspotDetail) (s : App) :
  observable (state_of (handle k d s)) = observable (anchored k d s).
Proof.
  destruct s as [cap det lg sc mat org [p r sc' v] sel wd md eff].
  unfold anchored, lookup_completes, calibration, event_pose.
  destruct k;
    unfold handle, wayspotFound, wayspotUpdated, wayspotLost, log, set_origin,
      set_visible, bind, modify;
    cbn -[applyOffset inherited lookup]; rewrite applyOffset_run;
    cbn -[inherited lookup];
    (destruct wd as [obj|]; [|reflexivity]);
    (destruct (obj !! detail_name d) as [data|]; [reflexivity|]);
    destruct (inherited (detail_name d)); reflexivity.
Qed.

Lemma anchored_observable (k : TrackingEvent) (d : WayspotDetail) (s : App) :
  observable (anchored k d s) = anchored k d (observable s).
Proof.
  destruct s as [cap det lg sc mat org rc sel wd md eff].
  unfold anchored, lookup_completes, calibration. cbn -[inherited lookup].
  destruct wd as [obj|]; [|reflexivity].
  destruct (obj !! detail_name d) as [data|]; [reflexivity|].
  destruct (inherited (detail_name d)); reflexivity.
Qed.

Lemma anchored_idempotent (k : TrackingEvent) (d : WayspotDetail) (s : App) :
  anchored k d (anchored k d s) = anchored k d s.
Proof.
  destruct s as [cap det lg sc mat org rc sel wd md eff].
  unfold anchored, lookup_completes, calibration. cbn -[inherited lookup].
  destruct wd as [obj|]; [|reflexivity].
  destruct (obj !! detail_name d) as [data|] eqn:Hkey; cbn -[inherited lookup].
  - rewrite Hkey. reflexivity.
  - destruct (inherited (detail_name d)) eqn:Hinh; cbn -[inherited lookup];
      rewrite ?Hkey, ?Hinh; reflexivity.
Qed.

(** X5: handling the same tracking event twice in a row leaves, apart
    from the log, the state that handling it once leaves. *)
Theorem handle_idempotent (k : TrackingEvent) (d : WayspotDetail) (s : App) :
  observable (state_of (handle k d (state_of (handle k d s))))
    = observable (state_of (handle k d s)).
Proof.
  rewrite (handle_observable k d (state_of (handle k d s))).
  rewrite anchored_observable, (handle_observable k d s).
  rewrite anchored_observable, anchored_idempotent.
  reflexivity.
Qed.

(** Every tracking handler writes at least one line to the log, and only
    adds to it. *)
Lemma handle_log (k : TrackingEvent) (d : WayspotDetail) (s : App) :
  exists lines : list LogArg,
    lines <> [] /\ logElement (state_of (handle k d s)) = (lines ++ logElement s)%list.
Proof.
  destruct s as [cap det lg sc mat org rc sel wd md eff].
  destruct k;
    unfold handle, wayspotFound, wayspotUpdated, wayspotLost, log, set_origin,
      set_visible, bind, modify;
    cbn -[applyOffset inherited lookup]; rewrite applyOffset_run;
    cbn -[inherited lookup];
    (destruct wd as [obj|];
     [destruct (obj !! detail_name d) as [data|];
      [|destruct (inherited (detail_name d))]|]);
    cbn;
    first [ solve [eexists [_; _]; split; [discriminate | reflexivity]]
          | solve [eexists [_]; split; [discriminate | reflexivity]] ].
Qed.

(** X6: a tracking handler that throws has changed nothing but the log,
    to which it has added: transform, pose, visibility, selection,
    materials and both elements are what they were. *)
Theorem failed_handler_only_logs (k : TrackingEvent) (d : WayspotDetail) (s : App) :
  completes (handle k d s) = false ->
  observable (state_of (handle k d s)) = observable s /\
  exists lines : list LogArg,
    lines <> [] /\ logElement (state_of (handle k d s)) = (lines ++ logElement s)%list.
Proof.
  intros Hfail.
  destruct (handle_fields k d s) as (Hc & _). cbv zeta in Hc.
  rewrite Hfail in Hc. split; [|apply handle_log].
  rewrite handle_observable. unfold anchored. now rewrite <- Hc.
Qed.

Lemma failed_handler_only_logs_witness :
  completes (handle Lost (demo_detail "wp1") demo_start) = false /\
  rootContainer (state_of (handle Lost (demo_detail "wp1") demo_start))
    = rootContainer demo_start.
Proof.
  assert (Hf : completes (handle Lost (demo_detail "wp1") demo_start) = false)
    by reflexivity.
  split; [exact Hf|].
  exact (f_equal rootContainer
           (proj1 (failed_handler_only_logs Lost (demo_detail "wp1") demo_start Hf))).
Defined.

Lemma track_wayspotData (events : list (TrackingEvent * WayspotDetail)) (s : App) :
  wayspotData (track events s) = wayspotData s.
Proof.
  revert s. induction events as [|[k d] events IH]; intros s; [reflexivity|].
  change (track ((k, d) :: events) s) with (track events (state_of (handle k d s))).
  rewrite IH. now destruct (handle_frame k d s) as (_ & _ & _ & _ & -> & _).
Qed.

Lemma track_transform (obj : gmap string WayspotEntry)
    (t0 : Vector3 * Euler * Vector3)
    (events : list (TrackingEvent * WayspotDetail)) :
  forall (s : App) (before : option WayspotEntry),
    wayspotData s = Some obj ->
    transform (rootContainer s)
      = match before with
        | Some entry => offset_transform (offset entry)
        | None => t0
        end ->
    transform (rootContainer (track events s))
      = match last_calibrated obj events before with
        | Some entry => offset_transform (offset entry)
        | None => t0
        end.
Proof.
  induction events as [|[k d] events IH]; intros s before Hstore Ht; [exact Ht|].
  change (track ((k, d) :: events) s) with (track events (state_of (handle k d s))).
  simpl last_calibrated. apply IH.
  - now destruct (handle_frame k d s) as (_ & _ & _ & _ & -> & _).
  - destruct (handle_fields k d s) as (_ & -> & _).
    unfold calibration. rewrite Hstore. simpl.
    destruct (obj !! detail_name d); [reflexivity | exact Ht].
Qed.

(** X7: after any run of tracking events on a loaded store, the
    container carries the offset of the latest event whose wayspot name
    has an entry, and its earlier transform if none has; the origin and
    the visibility are those of the last event, provided its name is a
    key or is not inherited. *)
Theorem anchor_follows_events (obj : gmap string WayspotEntry)
    (events : list (TrackingEvent * WayspotDetail)) (s : App) :
  wayspotData s = Some obj ->
  transform (rootContainer (track events s))
    = match last_calibrated obj events None with
      | Some entry => offset_transform (offset entry)
      | None => transform (rootContainer s)
      end /\
  (forall (earlier : list (TrackingEvent * WayspotDetail))
          (k : TrackingEvent) (d : WayspotDetail),
     events = (earlier ++ [(k, d)])%list ->
     is_Some (obj !! detail_name d) \/ inherited (detail_name d) = false ->
     origin (track events s) = event_pose d /\
     visible (rootContainer (track events s)) = visible_after k).
Proof.
  intros Hstore. split.
  - now apply (track_transform obj (transform (rootContainer s)) events s None).
  - intros earlier k d -> Hkey. unfold track. rewrite foldl_app. simpl.
    fold (track earlier s).
    assert (Hok : lookup_completes (track earlier s) (detail_name d) = true).
    { unfold lookup_completes. rewrite track_wayspotData, Hstore.
      destruct Hkey as [[e ->] | Hinh]; [reflexivity|].
      destruct (obj !! detail_name d); [reflexivity | now rewrite Hinh]. }
    destruct (handle_fields k d (track earlier s)) as (_ & _ & Hv & Ho & _).
    cbv zeta in *. rewrite Hok in *. now split.
Qed.

Lemma anchor_follows_events_witness :
  wayspotData demo_loaded = Some demo_wayspots /\
  transform (rootContainer
    (track [(Found, demo_detail "wp1"); (Lost, demo_detail "wp2")] demo_loaded))
    = offset_transform demo_offset /\
  visible (rootContainer
    (track [(Found, demo_detail "wp1"); (Lost, demo_detail "wp2")] demo_loaded))
    = false.
Proof.
  pose proof (anchor_follows_events demo_wayspots
                [(Found, demo_detail "wp1"); (Lost, demo_detail "wp2")]
                demo_loaded eq_refl) as [Ht Hlast].
  split; [reflexivity|]. split; [exact Ht|].
  exact (proj2 (Hlast [(Found, demo_detail "wp1")] Lost (demo_detail "wp2")
                  eq_refl (or_intror eq_refl))).
Defined.

(** X8: the two controllers keep to their own fields.  A frame update
    never changes the container, the origin or either store; a tracking
    handler never changes the selection, the materials, the caption or
    detail element, either store, or the history of writes. *)
Theorem controllers_keep_apart (intersects : list Intersection)
    (k : TrackingEvent) (d : WayspotDetail) (s : App) :
  (rootContainer (state_of (update intersects s)) = rootContainer s /\
   origin (state_of (update intersects s)) = origin s /\
   wayspotData (state_of (update intersects s)) = wayspotData s /\
   muralData (state_of (update intersects s)) = muralData s) /\
  (selected (state_of (handle k d s)) = selected s /\
   materials (state_of (handle k d s)) = materials s /\
   caption (state_of (handle k d s)) = caption s /\
   detail (state_of (handle k d s)) = detail s /\
   wayspotData (state_of (handle k d s)) = wayspotData s /\
   muralData (state_of (handle k d s)) = muralData s /\
   effects (state_of (handle k d s)) = effects s).
Proof.
  destruct (update_frame intersects s) as (H1 & H2 & H3 & H4 & _).
  destruct (handle_fields k d s) as (_ & _ & _ & _ & H5 & H6).
  destruct (handle_frame k d s) as (H7 & H8 & H9 & _ & H10 & H11).
  repeat split; assumption.
Qed.

(** X9: while the mural is not loaded, a frame that changes the selection
    throws, but only after it has selected and highlighted the new mesh
    with the caption hidden; the next frame with the same pick therefore
    completes and changes nothing. *)
Theorem unloaded_mural_throws_once (intersects next : list Intersection)
    (hit : Intersection) (s : App) :
  muralData s = None ->
  last intersects = Some hit ->
  object <$> last next = Some (object hit) ->
  selected s <> Some (object hit) ->
  let s' := state_of (update intersects s) in
  completes (update intersects s) = false /\
  selected s' = Some (object hit) /\
  materials s' !! mesh_material (scene s (object hit)) = Some (1 # 4) /\
  visibility (caption s') = "hidden" /\
  update next s' = Normal tt s'.
Proof.
  intros Hmd Hlast Hnext Hne. apply differs_true in Hne.
  destruct (update_new intersects hit s Hlast Hne)
    as (Hc & Hsel & _ & _ & Hm & Hv & _).
  cbv zeta in *. unfold resolve in Hv. rewrite Hmd in *.
  split; [exact Hc|]. split; [exact Hsel|]. split; [exact Hm|].
  split; [exact Hv|].
  destruct (last next) as [hit'|] eqn:Hl; [|discriminate].
  injection Hnext as Hnext.
  apply (update_same _ hit'); [exact Hl | congruence].
Qed.

Lemma unloaded_mural_throws_once_witness :
  muralData demo_start = None /\
  last [hit_near] = Some hit_near /\
  object <$> last [hit_far; hit_near] = Some (object hit_near) /\
  selected demo_start <> Some (object hit_near) /\
  completes (update [hit_near] demo_start) = false /\
  selected (state_of (update [hit_near] demo_start)) = Some 1%positive.
Proof.
  assert (Hne : selected demo_start <> Some (object hit_near)) by discriminate.
  pose proof (unloaded_mural_throws_once [hit_near] [hit_far; hit_near] hit_near
                demo_start eq_refl eq_refl eq_refl Hne) as (Hc & Hs & _).
  split; [reflexivity|]. split; [reflexivity|]. split; [reflexivity|].
  split; [exact Hne|]. split; [exact Hc | exact Hs].
Defined.

Lemma findFigure_loop_unique (fs : list FigureData) (fd : FigureData) :
  NoDup (tag <$> fs) -> fd ∈ fs -> findFigure_loop (tag fd) fs = Some fd.
Proof.
  induction fs as [|f fs IH]; intros Hnd Hin; [inversion Hin|].
  rewrite fmap_cons in Hnd. apply NoDup_cons in Hnd as [Hnotin Hnd].
  simpl. destruct (String.eqb (tag f) (tag fd)) eqn:Heq.
  - apply String.eqb_eq in Heq.
    apply elem_of_cons in Hin as [-> | Hin]; [reflexivity|].
    exfalso. apply Hnotin. rewrite Heq. now apply list_elem_of_fmap_2.
  - apply String.eqb_neq in Heq.
    apply elem_of_cons in Hin as [-> | Hin]; [congruence | now apply IH].
Qed.

(** X10: when the tags of the loaded mural are pairwise different, every
    figure of the mural is the one [findFigure] returns for its tag. *)
Theorem findFigure_unique_tags (md : MuralData) (fd : FigureData) (s : App) :
  muralData s = Some md ->
  NoDup (tag <$> figures md) ->
  fd ∈ figures md ->
  findFigure (tag fd) s = Normal (Some fd) s.
Proof.
  intros Hmd Hnd Hin. unfold findFigure, bind, read, ret. rewrite Hmd.
  now rewrite findFigure_loop_unique.
Qed.

Lemma findFigure_unique_tags_witness :
  muralData (state_of (muralLoaded demo_mural_unique demo_start))
    = Some demo_mural_unique /\
  NoDup (tag <$> figures demo_mural_unique) /\
  demo_figure_b ∈ figures demo_mural_unique /\
  findFigure "fig2" (state_of (muralLoaded demo_mural_unique demo_start))
    = Normal (Some demo_figure_b) (state_of (muralLoaded demo_mural_unique demo_start)).
Proof.
  assert (Hnd : NoDup (tag <$> figures demo_mural_unique)).
  { simpl. apply NoDup_cons. split; [|apply NoDup_singleton].
    intros [=]%list_elem_of_singleton. }
  assert (Hin : demo_figure_b ∈ figures demo_mural_unique).
  { apply elem_of_cons. right. apply list_elem_of_singleton. reflexivity. }
  split; [reflexivity|]. split; [exact Hnd|]. split; [exact Hin|].
  exact (findFigure_unique_tags demo_mural_unique demo_figure_b
           (state_of (muralLoaded demo_mural_unique demo_start)) eq_refl Hnd Hin).
Defined.

(** X11: the selection after a run of frames is decided by the last frame
    alone: it is the object of that frame's last hit, and nothing when
    that frame hit nothing. *)
Theorem selection_is_last_pick (hits : list (list Intersection))
    (intersects : list Intersection) (s : App) :
  selected (frames (hits ++ [intersects]) s) = object <$> last intersects.
Proof.
  unfold frames. rewrite foldl_app. simpl.
  set (s0 := foldl _ s hits). clearbody s0.
  destruct (last intersects) as [hit|] eqn:Hlast.
  - now apply update_selected.
  - apply last_None in Hlast as ->. rewrite update_no_hit.
    now destruct (deselect_fields s0) as (_ & -> & _).
Qed.

Lemma step_log (a : Action) (s : App) :
  logElement s `suffix_of` logElement (step a s).
Proof.
  destruct a as [intersects | k d | | | data | data]; unfold step, perform.
  - destruct (update_cases intersects s)
      as [[_ ->] | [(hit & _ & _ & ->) | (hit & Hlast & Hne & _)]].
    + destruct (deselect_fields s) as (_ & _ & _ & _ & _ & _ & -> & _). done.
    + done.
    + apply differs_true in Hne.
      destruct (update_new intersects hit s Hlast Hne) as (_ & _ & _ & -> & _).
      now eexists.
  - destruct (handle_log k d s) as (lines & _ & ->). now eexists.
  - destruct s. done.
  - destruct s. done.
  - destruct s. done.
  - destruct s. done.
Qed.

(** X12: the log only grows: whatever the callbacks, in whatever order,
    the lines present before are still there, below the new ones. *)
Theorem log_only_grows (acts : list Action) (s : App) :
  logElement s `suffix_of` logElement (run acts s).
Proof.
  induction acts as [|a acts IH] using rev_ind; [done|].
  rewrite run_snoc. etrans; [exact IH | apply step_log].
Qed.


Lemma step_stores (a : Action) (s : App) :
  (is_Some (muralData s) -> is_Some (muralData (step a s))) /\
  (is_Some (wayspotData s) -> is_Some (wayspotData (step a s))).
Proof.
  destruct a as [intersects | k d | | | data | data]; unfold step, perform.
  - destruct (update_frame intersects s) as (_ & _ & -> & -> & _). now split.
  - destruct (handle_frame k d s) as (_ & _ & _ & _ & -> & ->). now split.
  - destruct (tap_fields s) as (_ & _ & H & _).
    apply observable_fields in H as (_ & _ & _ & _ & _ & _ & _ & -> & ->). now split.
  - destruct (tap_fields s) as (_ & _ & _ & H).
    apply observable_fields in H as (_ & _ & _ & _ & _ & _ & _ & -> & ->). now split.
  - destruct (proj1 (loaded_fields s) data) as (_ & (q & Hnew & _) & H).
    cbv zeta in *.
    apply observable_fields in H as (_ & _ & _ & _ & _ & _ & _ & -> & _).
    rewrite Hnew. split; [eauto | trivial].
  - destruct (proj2 (loaded_fields s) data) as (_ & ->). simpl. split; [trivial | eauto].
Qed.

(** X14: a store that is loaded stays loaded whatever callbacks follow;
    so once the mural has been delivered no later frame update throws,
    and once the calibration has been delivered a handler for a name
    that is not a property name of [Object.prototype] never throws. *)
Theorem loaded_stores_stay_loaded (acts : list Action) (s : App) :
  (is_Some (muralData s) ->
     is_Some (muralData (run acts s)) /\
     forall intersects : list Intersection,
       completes (update intersects (run acts s)) = true) /\
  (is_Some (wayspotData s) ->
     is_Some (wayspotData (run acts s)) /\
     forall (k : TrackingEvent) (d : WayspotDetail),
       inherited (detail_name d) = false ->
       completes (handle k d (run acts s)) = true).
Proof.
  assert (H : (is_Some (muralData s) -> is_Some (muralData (run acts s))) /\
              (is_Some (wayspotData s) -> is_Some (wayspotData (run acts s)))).
  { induction acts as [|a acts IH] using rev_ind; [now split|].
    rewrite run_snoc. destruct (step_stores a (run acts s)) as [H1 H2].
    destruct IH as [IH1 IH2]. split; auto. }
  destruct H as [Hm Hw]. split.
  - intros Hs. specialize (Hm Hs). split; [exact Hm|]. intros intersects.
    destruct Hm as [md Hmd].
    destruct (update_cases intersects (run acts s))
      as [[_ ->] | [(hit & _ & _ & ->) | (hit & Hlast & Hne & _)]].
    + now destruct (deselect_fields (run acts s)) as (-> & _).
    + reflexivity.
    + apply differs_true in Hne.
      destruct (update_new intersects hit (run acts s) Hlast Hne) as (-> & _).
      now rewrite Hmd.
  - intros Hs. specialize (Hw Hs). split; [exact Hw|]. intros k d Hinh.
    destruct Hw as [obj Hobj].
    destruct (handle_fields k d (run acts s)) as (-> & _).
    unfold lookup_completes. rewrite Hobj, Hinh.
    now destruct (obj !! detail_name d).
Qed.

Lemma loaded_stores_stay_loaded_witness :
  is_Some (muralData demo_loaded) /\
  is_Some (wayspotData demo_loaded) /\
  inherited (detail_name (demo_detail "wp2")) = false /\
  completes (update [hit_wall]
               (run [Frame [hit_near]; TapCaption; Tracking Lost (demo_detail "wp1")]
                  demo_loaded)) = true /\
  completes (handle Found (demo_detail "wp2")
               (run [Frame [hit_near]; TapCaption; Tracking Lost (demo_detail "wp1")]
                  demo_loaded)) = true.
Proof.
  assert (Hm : is_Some (muralData demo_loaded)) by (eexists; reflexivity).
  assert (Hw : is_Some (wayspotData demo_loaded)) by (eexists; reflexivity).
  assert (Hi : inherited (detail_name (demo_detail "wp2")) = false) by reflexivity.
  pose proof (loaded_stores_stay_loaded
                [Frame [hit_near]; TapCaption; Tracking Lost (demo_detail "wp1")]
                demo_loaded) as [H1 H2].
  split; [exact Hm|]. split; [exact Hw|]. split; [exact Hi|]. split.
  - exact (proj2 (H1 Hm) [hit_wall]).
  - exact (proj2 (H2 Hw) Found (demo_detail "wp2") Hi).
Defined.
